(** * A first-fit memory manager with manual defragmentation

    Shallow embedding of [main.py] (classes [MemoryBlock] and
    [MemoryManager]) and the properties of its allocation, release,
    compaction and block access operations.

    Python integers are unbounded and are modelled by [Z]; Python lists by
    [list] with the indexing rules of Python written out (negative indices
    count from the end, an index outside the list raises [IndexError]);
    the [allocations] dict by an association list in insertion order, the
    order in which a Python dict is iterated.  One-character strings stored
    in the lists are [string]s, as Python has no character type; a
    character is an [ascii] of the standard library.  The lock
    taken by every method serialises the calls; the model is the sequential
    behaviour of one call at a time. *)

From stdpp Require Import base list numbers strings sorting.

Local Open Scope Z_scope.

(** ** Errors *)

(** One constructor per [raise] statement of [main.py], plus the
    [IndexError] that Python itself raises for a list index out of range. *)
Inductive error : Type :=
  | MemorySizeNotPositive                    (* ValueError, line 27 *)
  | InvalidAllocSize                         (* ValueError, line 38 *)
  | InsufficientMemory                       (* MemoryError, line 50 *)
  | NoSuchBlock (block_id : Z)               (* ValueError, lines 57, 91, 106, 117 *)
  | WriteOffsetOutOfBounds (offset block_id : Z)  (* IndexError, line 93 *)
  | DataExceedsBlock (available : Z)         (* ValueError, line 95 *)
  | NegativeOffset                           (* IndexError, line 108 *)
  | LengthNotPositive                        (* ValueError, line 110 *)
  | OffsetExceedsMemory                      (* IndexError, line 112 *)
  | ReadExceedsMemory                        (* IndexError, line 114 *)
  | ReadRangeOutOfBounds (block_id : Z)      (* IndexError, line 119 *)
  | ListIndexOutOfRange.                     (* IndexError raised by list indexing *)

Inductive py_exception : Type := ValueError | MemoryError | IndexError.

Definition exception_class (e : error) : py_exception :=
  match e with
  | MemorySizeNotPositive | InvalidAllocSize | NoSuchBlock _
  | DataExceedsBlock _ | LengthNotPositive => ValueError
  | InsufficientMemory => MemoryError
  | WriteOffsetOutOfBounds _ _ | NegativeOffset | OffsetExceedsMemory
  | ReadExceedsMemory | ReadRangeOutOfBounds _ | ListIndexOutOfRange => IndexError
  end.

(** The error kinds of the specification, and the kind each [raise]
    statement stands for. *)
Inductive error_kind : Type :=
  | InvalidArgument | OutOfMemory | UnknownHandle | OutOfBounds | CapacityExceeded.

Definition kind_of (e : error) : error_kind :=
  match e with
  | MemorySizeNotPositive | InvalidAllocSize | LengthNotPositive => InvalidArgument
  | InsufficientMemory => OutOfMemory
  | NoSuchBlock _ => UnknownHandle
  | DataExceedsBlock _ => CapacityExceeded
  | WriteOffsetOutOfBounds _ _ | NegativeOffset | OffsetExceedsMemory
  | ReadExceedsMemory | ReadRangeOutOfBounds _ | ListIndexOutOfRange => OutOfBounds
  end.

Inductive result (A : Type) : Type :=
  | Ok (a : A)
  | Err (e : error).
Arguments Ok {A} a.
Arguments Err {A} e.

(** ** Python lists *)

(** [l[i]]: the position an index denotes, if any. *)
Definition py_index {A} (l : list A) (i : Z) : option nat :=
  let n := Z.of_nat (length l) in
  if (0 <=? i) && (i <? n) then Some (Z.to_nat i)
  else if (- n <=? i) && (i <? 0) then Some (Z.to_nat (i + n))
  else None.

Definition py_getitem {A} (l : list A) (i : Z) : option A :=
  match py_index l i with
  | Some k => l !! k
  | None => None
  end.

Definition py_setitem {A} (l : list A) (i : Z) (v : A) : option (list A) :=
  match py_index l i with
  | Some k => Some (<[k:=v]> l)
  | None => None
  end.

(** [range(a, b)] *)
Definition range (a b : Z) : list Z := seqZ a (b - a).

(** [l[a:b]] with the clamping of Python slices. *)
Definition py_slice_bound (n i : Z) : Z :=
  if i <? 0 then Z.max 0 (i + n) else Z.min i n.

Definition py_slice {A} (l : list A) (a b : Z) : list A :=
  let n := Z.of_nat (length l) in
  let a' := py_slice_bound n a in
  let b' := py_slice_bound n b in
  take (Z.to_nat (b' - a')) (drop (Z.to_nat a') l).

(** [''.join(l)] *)
Definition join (l : list string) : string := String.concat EmptyString l.

(** [for j in js: l[j] = v]; the list as it is when the loop ends or
    raises. *)
Fixpoint set_range (l : list string) (js : list Z) (v : string)
  : list string * option error :=
  match js with
  | [] => (l, None)
  | j :: js' =>
      match py_setitem l j v with
      | None => (l, Some ListIndexOutOfRange)
      | Some l' => set_range l' js' v
      end
  end.

(** ** Python dicts keyed by integers, in insertion order *)

Definition dict (V : Type) : Type := list (Z * V).

Fixpoint dict_get {V} (d : dict V) (k : Z) : option V :=
  match d with
  | [] => None
  | (k', v) :: d' => if k' =? k then Some v else dict_get d' k
  end.

Definition dict_contains {V} (d : dict V) (k : Z) : bool :=
  match dict_get d k with Some _ => true | None => false end.

(** [d[k] = v]: an existing key keeps its place, a new key goes last. *)
Fixpoint dict_set {V} (d : dict V) (k : Z) (v : V) : dict V :=
  match d with
  | [] => [(k, v)]
  | (k', v') :: d' =>
      if k' =? k then (k, v) :: d' else (k', v') :: dict_set d' k v
  end.

Fixpoint dict_del {V} (d : dict V) (k : Z) : dict V :=
  match d with
  | [] => []
  | (k', v') :: d' => if k' =? k then d' else (k', v') :: dict_del d' k
  end.

(** [d.pop(k, None)] *)
Definition dict_pop {V} (d : dict V) (k : Z) : option V * dict V :=
  (dict_get d k, dict_del d k).

(** ** MemoryBlock *)

Module MemoryBlock.
Record t : Type := mk { start : Z; size : Z; data : list string }.

(** [MemoryBlock(start, size)] *)
Definition init (start size : Z) : t :=
  mk start size (replicate (Z.to_nat size) EmptyString).

Definition with_data (b : t) (d : list string) : t :=
  mk (start b) (size b) d.
End MemoryBlock.

(** ** MemoryManager *)

Module MemoryManager.
Record t : Type := mk {
  size : Z;
  memory : list string;
  allocations : dict MemoryBlock.t;
  next_id : Z
}.

Definition with_memory (s : t) (m : list string) : t :=
  mk (size s) m (allocations s) (next_id s).

Definition with_allocations (s : t) (d : dict MemoryBlock.t) : t :=
  mk (size s) (memory s) d (next_id s).

(** [MemoryManager(size)] *)
Definition init (size : Z) : result t :=
  if size <=? 0 then Err MemorySizeNotPositive
  else Ok (mk size (replicate (Z.to_nat size) "-") [] 1).

(** [all(self.memory[j] == '-' for j in js)]; [all] stops at the first
    false element. *)
Fixpoint all_free (memory : list string) (js : list Z) : result bool :=
  match js with
  | [] => Ok true
  | j :: js' =>
      match py_getitem memory j with
      | None => Err ListIndexOutOfRange
      | Some c => if String.eqb c "-" then all_free memory js' else Ok false
      end
  end.

(** The [while] loop of [alloc]: [i] runs over [candidates], the
    offsets [0, 1, ..., len(self.memory) - size], in that order. *)
Fixpoint alloc_scan (s : t) (sz : Z) (candidates : list Z) : t * result Z :=
  match candidates with
  | [] => (s, Err InsufficientMemory)
  | i :: rest =>
      match all_free (memory s) (range i (i + sz)) with
      | Err e => (s, Err e)
      | Ok false => alloc_scan s sz rest
      | Ok true =>
          match set_range (memory s) (range i (i + sz)) "X" with
          | (m, Some e) => (with_memory s m, Err e)
          | (m, None) =>
              let block_id := next_id s in
              (mk (size s) m
                  (dict_set (allocations s) block_id (MemoryBlock.init i sz))
                  (next_id s + 1),
               Ok block_id)
          end
      end
  end.

Definition alloc (s : t) (sz : Z) : t * result Z :=
  let n := Z.of_nat (length (memory s)) in
  if (sz <=? 0) || (n <? sz) then (s, Err InvalidAllocSize)
  else alloc_scan s sz (range 0 (n - sz + 1)).

Definition free (s : t) (block_id : Z) : t * result bool :=
  if negb (dict_contains (allocations s) block_id)
  then (s, Err (NoSuchBlock block_id))
  else
    match dict_pop (allocations s) block_id with
    | (None, d) => (with_allocations s d, Ok false)
    | (Some block, d) =>
        let a := MemoryBlock.start block in
        let s1 := with_allocations s d in
        match set_range (memory s) (range a (a + MemoryBlock.size block)) "-" with
        | (m, Some e) => (with_memory s1 m, Err e)
        | (m, None) => (with_memory s1 m, Ok true)
        end
    end.

(** [sorted(items, key=lambda kv: kv[1].start)]: [sorted] is stable, so
    the result is the one of a stable insertion sort. *)
Fixpoint insert_by_start (x : Z * MemoryBlock.t) (l : dict MemoryBlock.t)
  : dict MemoryBlock.t :=
  match l with
  | [] => [x]
  | y :: l' =>
      if MemoryBlock.start (snd x) <=? MemoryBlock.start (snd y)
      then x :: y :: l'
      else y :: insert_by_start x l'
  end.

Fixpoint sorted_by_start (l : dict MemoryBlock.t) : dict MemoryBlock.t :=
  match l with
  | [] => []
  | x :: l' => insert_by_start x (sorted_by_start l')
  end.

(** The [for] loop of [defragment] over the sorted items. *)
Fixpoint defragment_loop (items : dict MemoryBlock.t)
    (new_memory : list string) (new_allocations : dict MemoryBlock.t)
    (curr : Z) : result (list string * dict MemoryBlock.t) :=
  match items with
  | [] => Ok (new_memory, new_allocations)
  | (block_id, block) :: rest =>
      match set_range new_memory
              ((λ i, curr + i) <$> range 0 (MemoryBlock.size block)) "X" with
      | (_, Some e) => Err e
      | (m, None) =>
          let moved := MemoryBlock.with_data
                         (MemoryBlock.init curr (MemoryBlock.size block))
                         (MemoryBlock.data block) in
          defragment_loop rest m (dict_set new_allocations block_id moved)
            (curr + MemoryBlock.size block)
      end
  end.

(** [self.memory] and [self.allocations] are assigned after the loop: an
    exception inside it leaves the manager as it was. *)
Definition defragment (s : t) : t * result unit :=
  match defragment_loop (sorted_by_start (allocations s))
          (replicate (length (memory s)) "-") [] 0 with
  | Err e => (s, Err e)
  | Ok (m, d) => (mk (size s) m d (next_id s), Ok tt)
  end.

(** [for i, char in enumerate(data): block.data[offset + i] = char] *)
Fixpoint write_chars (cells : list string) (offset i : Z) (chars : list Ascii.ascii)
  : list string * option error :=
  match chars with
  | [] => (cells, None)
  | c :: rest =>
      match py_setitem cells (offset + i) (String c EmptyString) with
      | None => (cells, Some ListIndexOutOfRange)
      | Some cells' => write_chars cells' offset (i + 1) rest
      end
  end.

(** The block object is mutated in place: the dict keeps the key where
    it is and sees the new payload. *)
Definition write (s : t) (block_id offset : Z) (data : string) : t * result unit :=
  match dict_get (allocations s) block_id with
  | None => (s, Err (NoSuchBlock block_id))
  | Some block =>
      if (offset <? 0) || (MemoryBlock.size block <=? offset)
      then (s, Err (WriteOffsetOutOfBounds offset block_id))
      else if MemoryBlock.size block - offset <? Z.of_nat (String.length data)
      then (s, Err (DataExceedsBlock (MemoryBlock.size block - offset)))
      else
        match write_chars (MemoryBlock.data block) offset 0
                (String.list_ascii_of_string data) with
        | (cells, err) =>
            (with_allocations s
               (dict_set (allocations s) block_id
                  (MemoryBlock.with_data block cells)),
             match err with Some e => Err e | None => Ok tt end)
        end
  end.

Definition read (s : t) (block_id offset length : Z) : t * result string :=
  let n := Z.of_nat (List.length (memory s)) in
  if negb (dict_contains (allocations s) block_id)
  then (s, Err (NoSuchBlock block_id))
  else if offset <? 0 then (s, Err NegativeOffset)
  else if length <=? 0 then (s, Err LengthNotPositive)
  else if n <=? offset then (s, Err OffsetExceedsMemory)
  else if n <? offset + length then (s, Err ReadExceedsMemory)
  else
    match dict_get (allocations s) block_id with
    | None => (s, Err (NoSuchBlock block_id))
    | Some block =>
        if (offset <? 0) || (MemoryBlock.size block <? offset + length)
        then (s, Err (ReadRangeOutOfBounds block_id))
        else (s, Ok (join (py_slice (MemoryBlock.data block) offset
                                    (offset + length))))
    end.

(** *** Rendering *)

(** [char if char else 'X']: an empty string is false in Python. *)
Definition shown (char : string) : string :=
match char with
| EmptyString => "X"
| String _ _ => char
end.

(** The inner loop of [__str__] for one block, [i] running over
    [indices]; [cells] is the list [result] of the source. *)
Fixpoint render_block (cells : list string) (block : MemoryBlock.t)
  (indices : list Z) : result (list string) :=
match indices with
| [] => Ok cells
| i :: rest =>
    match py_getitem (MemoryBlock.data block) i with
    | None => Err ListIndexOutOfRange
    | Some char =>
        match py_setitem cells (MemoryBlock.start block + i) (shown char) with
        | None => Err ListIndexOutOfRange
        | Some cells' => render_block cells' block rest
        end
    end
end.

(** The outer loop of [__str__] over [self.allocations.values()]. *)
Fixpoint render_blocks (cells : list string) (blocks : list MemoryBlock.t)
  : result (list string) :=
match blocks with
| [] => Ok cells
| block :: rest =>
    match render_block cells block (range 0 (MemoryBlock.size block)) with
    | Err e => Err e
    | Ok cells' => render_blocks cells' rest
    end
end.

(** [str(manager)]; the manager is not changed. *)
Definition __str__ (s : t) : result string :=
match render_blocks (replicate (length (memory s)) "-")
        (snd <$> allocations s) with
| Err e => Err e
| Ok cells => Ok (join cells)
end.

(** *** Calls and reachable states *)

Inductive call : Type :=
  | Alloc (size : Z)
  | Free (block_id : Z)
  | Defragment
  | Write (block_id offset : Z) (data : string)
  | Read (block_id offset length : Z).

Inductive value : Type :=
  | VInt (z : Z)
  | VBool (b : bool)
  | VStr (s : string)
  | VNone.

Definition map_result {A B} (f : A → B) (r : result A) : result B :=
  match r with Ok a => Ok (f a) | Err e => Err e end.

Definition run (c : call) (s : t) : t * result value :=
  match c with
  | Alloc sz => let (s', r) := alloc s sz in (s', map_result VInt r)
  | Free h => let (s', r) := free s h in (s', map_result VBool r)
  | Defragment => let (s', r) := defragment s in (s', map_result (λ _, VNone) r)
  | Write h o d => let (s', r) := write s h o d in (s', map_result (λ _, VNone) r)
  | Read h o n => let (s', r) := read s h o n in (s', map_result VStr r)
  end.

(** The state after a sequence of calls, whether they succeed or raise. *)
Definition run_all (cs : list call) (s : t) : t :=
  foldl (λ s c, fst (run c s)) s cs.

(** The states a manager can be in: built by the constructor and then
    driven by any calls, including the ones that raise. *)
Inductive reachable : t → Prop :=
  | reachable_init n s : init n = Ok s → reachable s
  | reachable_step c s : reachable s → reachable (fst (run c s)).
End MemoryManager.

Import MemoryManager.

(** The example of the [__main__] block and of [tests.py]: a region of
    five cells. *)
Definition mm5 : MemoryManager.t :=
  MemoryManager.mk 5 (replicate 5 "-") [] 1.

(** * Vocabulary of the properties *)

(** Case analysis on the integer tests of the code. *)
Ltac ztest :=
  repeat match goal with
    | |- context [?a <=? ?b] => destruct (Z.leb_spec a b)
    | |- context [?a <? ?b] => destruct (Z.ltb_spec a b)
    | |- context [?a =? ?b] => destruct (Z.eqb_spec a b)
    end;
  simpl; try lia.

(** The cells [i .. i+sz-1] of the occupancy array are all free. *)
Definition free_run (m : list string) (i sz : Z) : Prop :=
  ∀ j, i ≤ j < i + sz → m !! Z.to_nat j = Some "-".

(** [r] is the outcome of a successful allocation of [sz] cells at offset
    [i]: the cells of the run are marked, a fresh block at [i] is entered
    under the handle [next_id s], which is returned, and the counter is
    incremented. *)
Definition allocated_at (s : MemoryManager.t) (sz i : Z)
    (r : MemoryManager.t * result Z) : Prop :=
  ∃ m,
    r = (MemoryManager.mk (size s) m
           (dict_set (allocations s) (next_id s) (MemoryBlock.init i sz))
           (next_id s + 1),
         Ok (next_id s)) ∧
    length m = length (memory s) ∧
    ∀ k : nat, m !! k =
      if (i <=? Z.of_nat k) && (Z.of_nat k <? i + sz) then Some "X"
      else memory s !! k.

(** The one-character string that [write] stores for a character. *)
Definition cell_of (c : Ascii.ascii) : string := String c EmptyString.

(** [r] is an exception of kind [k]. *)
Definition raises {A} (r : result A) (k : error_kind) : Prop :=
  ∃ e, r = Err e ∧ kind_of e = k.

(** Cell [j] lies in the range of a live block. *)
Definition covered (d : dict MemoryBlock.t) (j : Z) : Prop :=
  ∃ h b, dict_get d h = Some b ∧
         MemoryBlock.start b ≤ j < MemoryBlock.start b + MemoryBlock.size b.

(** One of the two ranges ends before the other starts. *)
Definition disjoint_blocks (b1 b2 : MemoryBlock.t) : Prop :=
  MemoryBlock.start b1 + MemoryBlock.size b1 ≤ MemoryBlock.start b2 ∨
  MemoryBlock.start b2 + MemoryBlock.size b2 ≤ MemoryBlock.start b1.

(** The invariant of the manager: the array has the length of the region;
    the handles of the table are distinct and below the counter; every
    live block is non-empty, lies in the region and has a payload of its
    size; live blocks do not overlap; the array marks exactly the cells of
    the live blocks. *)
Record Inv (s : MemoryManager.t) : Prop := {
  inv_length : Z.of_nat (length (memory s)) = size s;
  inv_keys : NoDup (allocations s).*1;
  inv_next : 1 ≤ next_id s;
  inv_ids : ∀ h b, dict_get (allocations s) h = Some b → 1 ≤ h < next_id s;
  inv_block : ∀ h b, dict_get (allocations s) h = Some b →
      1 ≤ MemoryBlock.size b ∧ 0 ≤ MemoryBlock.start b ∧
      MemoryBlock.start b + MemoryBlock.size b ≤ size s ∧
      Z.of_nat (length (MemoryBlock.data b)) = MemoryBlock.size b;
  inv_disjoint : ∀ h1 h2 b1 b2, h1 ≠ h2 →
      dict_get (allocations s) h1 = Some b1 →
      dict_get (allocations s) h2 = Some b2 →
      disjoint_blocks b1 b2;
  inv_occupied : ∀ j : nat,
      covered (allocations s) (Z.of_nat j) → memory s !! j = Some "X";
  inv_free : ∀ j : nat, (j < length (memory s))%nat →
      ¬ covered (allocations s) (Z.of_nat j) → memory s !! j = Some "-"
}.

(** The order of [sorted(..., key=lambda kv: kv[1].start)]. *)
Definition by_start (x y : Z * MemoryBlock.t) : Prop :=
  MemoryBlock.start (snd x) ≤ MemoryBlock.start (snd y).

(** The sum of the sizes of the blocks of a list of items. *)
Definition total_size (items : dict MemoryBlock.t) : Z :=
  foldr (λ kv acc, MemoryBlock.size (snd kv) + acc) 0 items.

(** The items laid out one after the other from [curr] on: the table that
    the loop of [defragment] builds. *)
Fixpoint relocate (curr : Z) (items : dict MemoryBlock.t) : dict MemoryBlock.t :=
  match items with
  | [] => []
  | (h, b) :: rest =>
      (h, MemoryBlock.mk curr (MemoryBlock.size b) (MemoryBlock.data b))
        :: relocate (curr + MemoryBlock.size b) rest
  end.

(** Cell [j] lies in the range [start .. start+size-1] of block [b]. *)
Definition in_block (b : MemoryBlock.t) (j : Z) : Prop :=
  MemoryBlock.start b ≤ j < MemoryBlock.start b + MemoryBlock.size b.

#[local] Instance MemoryBlock_eq_dec : EqDecision MemoryBlock.t.
Proof. solve_decision. Defined.

(** A region of five cells after [alloc(3)]: block 1 at offset 0. *)
Definition state_alloc3 : MemoryManager.t := run_all [Alloc 3] mm5.

(** ... and after [write(1, 0, "abc")]. *)
Definition state_abc : MemoryManager.t := run_all [Alloc 3; Write 1 0 "abc"] mm5.

(** A region of five cells after [alloc(1)]: the array is [X----]. *)
Definition state_alloc1 : MemoryManager.t := run_all [Alloc 1] mm5.

(** The fragmented region of the demonstration: five blocks of one cell,
    the second and the fourth freed; the array is [X-X-X]. *)
Definition state_fragmented : MemoryManager.t :=
  run_all [Alloc 1; Alloc 1; Alloc 1; Alloc 1; Alloc 1; Free 2; Free 4] mm5.

(** Closed integer comparisons, by evaluation. *)
Ltac evaluate := vm_compute; repeat split; (discriminate || reflexivity).

(** Every payload cell of every live block is empty or one character. *)
Definition short_payloads (s : MemoryManager.t) : Prop :=
  ∀ h b c, dict_get (allocations s) h = Some b →
           c ∈ MemoryBlock.data b → (String.length c ≤ 1)%nat.

(** * Properties *)

(** ** The scenarios of the demonstration and of the tests *)

Example demo_scenario :
  let s := state_fragmented in
  memory s = ["X"; "-"; "X"; "-"; "X"] ∧
  snd (alloc s 2) = Err InsufficientMemory ∧
  let s' := fst (defragment s) in
  memory s' = ["X"; "X"; "X"; "-"; "-"] ∧
  (λ kv, (fst kv, MemoryBlock.start (snd kv))) <$> allocations s' = [(1, 0); (3, 1); (5, 2)] ∧
  snd (alloc s' 2) = Ok 6 ∧
  memory (fst (alloc s' 2)) = ["X"; "X"; "X"; "X"; "X"].
Proof. vm_compute. repeat split; reflexivity. Qed.

Example write_read_scenario :
  let s := state_abc in
  snd (read s 1 0 3) = Ok "abc" ∧
  snd (read s 1 0 5) = Err (ReadRangeOutOfBounds 1).
Proof. vm_compute. split; reflexivity. Qed.

(** ** Python list indexing inside the list *)

Section PyList.
Context {A : Type}.
Implicit Types (l : list A) (i : Z) (k : nat).

Lemma py_index_inside l i :
  0 ≤ i < Z.of_nat (length l) → py_index l i = Some (Z.to_nat i).
Proof.
  intros Hi. unfold py_index.
  destruct (Z.leb_spec 0 i), (Z.ltb_spec i (Z.of_nat (length l))); simpl; (reflexivity || lia).
Qed.

Lemma py_getitem_inside l i :
  0 ≤ i < Z.of_nat (length l) → py_getitem l i = l !! Z.to_nat i.
Proof. intros Hi. unfold py_getitem. by rewrite py_index_inside. Qed.

Lemma py_setitem_inside l i v :
  0 ≤ i < Z.of_nat (length l) → py_setitem l i v = Some (<[Z.to_nat i:=v]> l).
Proof. intros Hi. unfold py_setitem. by rewrite py_index_inside. Qed.

Lemma py_slice_inside l a b :
  0 ≤ a → a ≤ b → b ≤ Z.of_nat (length l) →
  py_slice l a b = take (Z.to_nat (b - a)) (drop (Z.to_nat a) l).
Proof.
  intros Ha Hab Hb. unfold py_slice, py_slice_bound.
  destruct (Z.ltb_spec a 0), (Z.ltb_spec b 0); try lia.
  by rewrite !Z.min_l by lia.
Qed.
End PyList.

Lemma range_cons a b : a < b → range a b = a :: range (a + 1) b.
Proof.
  intros Hab. unfold range. rewrite seqZ_cons by lia.
  f_equal. f_equal; lia.
Qed.

Lemma range_nil a b : b ≤ a → range a b = [].
Proof. intros Hab. unfold range. apply seqZ_nil. lia. Qed.

(** ** Marking a run of cells *)

(** Inside the list, the loop [for j in range(a, b): l[j] = v] never
    raises and overwrites exactly the cells [a .. b-1]. *)
Lemma set_range_inside (n : nat) : ∀ (l : list string) (a : Z) v,
  0 ≤ a → a + Z.of_nat n ≤ Z.of_nat (length l) →
  ∃ l', set_range l (range a (a + Z.of_nat n)) v = (l', None) ∧
        length l' = length l ∧
        ∀ k : nat, l' !! k =
          if (a <=? Z.of_nat k) && (Z.of_nat k <? a + Z.of_nat n)
          then Some v else l !! k.
Proof.
  induction n as [|n IH]; intros l a v Ha Hn.
  - rewrite range_nil by lia. exists l. repeat split.
    intros k. ztest; reflexivity.
  - rewrite range_cons by lia. simpl.
    rewrite py_setitem_inside by lia.
    destruct (IH (<[Z.to_nat a:=v]> l) (a + 1) v) as (l' & Hl' & Hlen & Hlk).
    { lia. } { rewrite length_insert. lia. }
    replace (a + 1 + Z.of_nat n) with (a + Z.of_nat (S n)) in Hl' by lia.
    exists l'. split; [exact Hl'|]. split; [by rewrite Hlen, length_insert|].
    intros k. rewrite Hlk.
    destruct (decide (k = Z.to_nat a)) as [->|Hne].
    + rewrite list_lookup_insert_eq by lia. ztest; reflexivity.
    + rewrite list_lookup_insert_ne by lia. ztest; reflexivity.
Qed.

Lemma set_range_inside_Z (l : list string) (a b : Z) v :
  0 ≤ a → a ≤ b → b ≤ Z.of_nat (length l) →
  ∃ l', set_range l (range a b) v = (l', None) ∧
        length l' = length l ∧
        ∀ k : nat, l' !! k =
          if (a <=? Z.of_nat k) && (Z.of_nat k <? b) then Some v else l !! k.
Proof.
  intros Ha Hab Hb.
  destruct (set_range_inside (Z.to_nat (b - a)) l a v) as (l' & H1 & H2 & H3);
    [lia | lia |].
  replace (a + Z.of_nat (Z.to_nat (b - a))) with b in * by lia.
  eauto.
Qed.

(** ** Dict lookups after updates *)

Section Dict.
Context {V : Type}.
Implicit Types (d : dict V) (k : Z) (v : V).

Lemma dict_get_elem_of d k v : dict_get d k = Some v → (k, v) ∈ d.
Proof.
  induction d as [|[k' v'] d IH]; simpl; [done|].
  destruct (Z.eqb_spec k' k) as [->|Hne].
  - intros [= ->]. apply list_elem_of_here.
  - intros Hg. apply list_elem_of_further. auto.
Qed.

Lemma dict_get_None d k : dict_get d k = None ↔ k ∉ d.*1.
Proof.
  induction d as [|[k' v'] d IH]; simpl.
  - split; [intros _; apply not_elem_of_nil | done].
  - rewrite not_elem_of_cons. destruct (Z.eqb_spec k' k) as [->|Hne].
    + split; [done | intros [? _]; done].
    + rewrite IH. split; [intros ?; split; [congruence | done] | intros [_ ?]; done].
Qed.

Lemma dict_get_is_Some d k : is_Some (dict_get d k) ↔ k ∈ d.*1.
Proof.
  destruct (dict_get d k) eqn:Hg.
  - split; [intros _ | by eauto].
    apply dict_get_elem_of in Hg.
    apply (list_elem_of_fmap_2 fst) in Hg. exact Hg.
  - apply dict_get_None in Hg. split; [intros [? [=]] | done].
Qed.

Lemma elem_of_dict_get d k v : NoDup d.*1 → (k, v) ∈ d → dict_get d k = Some v.
Proof.
  induction d as [|[k' v'] d IH]; simpl; intros Hnd Hin.
  - by apply elem_of_nil in Hin.
  - apply NoDup_cons in Hnd as [Hk' Hnd].
    apply elem_of_cons in Hin as [[= -> ->]|Hin].
    + by rewrite Z.eqb_refl.
    + destruct (Z.eqb_spec k' k) as [->|Hne]; [|auto].
      exfalso. apply Hk'. apply (list_elem_of_fmap_2 fst) in Hin. exact Hin.
Qed.

Lemma dict_get_set d k v k' :
  dict_get (dict_set d k v) k' = if k =? k' then Some v else dict_get d k'.
Proof.
  induction d as [|[k0 v0] d IH]; simpl.
  - reflexivity.
  - destruct (Z.eqb_spec k0 k) as [->|Hne]; simpl.
    + destruct (Z.eqb_spec k k'); reflexivity.
    + rewrite IH. destruct (Z.eqb_spec k0 k'), (Z.eqb_spec k k'); (reflexivity || congruence).
Qed.

Lemma dict_set_fresh d k v : k ∉ d.*1 → dict_set d k v = d ++ [(k, v)].
Proof.
  induction d as [|[k0 v0] d IH]; simpl; [done|].
  rewrite not_elem_of_cons. intros [Hne Hk].
  destruct (Z.eqb_spec k0 k); [congruence|]. by rewrite IH.
Qed.

Lemma dict_set_keys_present d k v : k ∈ d.*1 → (dict_set d k v).*1 = d.*1.
Proof.
  induction d as [|[k0 v0] d IH]; simpl.
  - intros Hk. by apply elem_of_nil in Hk.
  - intros Hk. destruct (Z.eqb_spec k0 k) as [->|Hne]; simpl; [done|].
    apply elem_of_cons in Hk as [->|Hk]; [done|]. f_equal. by apply IH.
Qed.

Lemma dict_set_NoDup d k v : NoDup d.*1 → NoDup (dict_set d k v).*1.
Proof.
  intros Hnd. destruct (decide (k ∈ d.*1)) as [Hk|Hk].
  - by rewrite dict_set_keys_present.
  - rewrite dict_set_fresh by done. rewrite fmap_app. simpl.
    apply NoDup_app. split; [done|]. split.
    + intros x Hx Hx'. apply list_elem_of_singleton in Hx'. by subst.
    + apply NoDup_singleton.
Qed.

Lemma dict_del_keys_sublist d k : (dict_del d k).*1 `sublist_of` d.*1.
Proof.
  induction d as [|[k0 v0] d IH]; simpl; [done|].
  destruct (Z.eqb_spec k0 k); simpl.
  - by apply sublist_cons.
  - by apply sublist_skip.
Qed.

Lemma dict_del_NoDup d k : NoDup d.*1 → NoDup (dict_del d k).*1.
Proof. intros Hnd. eapply sublist_NoDup; [exact Hnd | apply dict_del_keys_sublist]. Qed.

Lemma dict_get_del d k k' :
  NoDup d.*1 →
  dict_get (dict_del d k) k' = if k =? k' then None else dict_get d k'.
Proof.
  induction d as [|[k0 v0] d IH]; simpl; intros Hnd.
  - by destruct (k =? k').
  - apply NoDup_cons in Hnd as [Hk0 Hnd].
    destruct (Z.eqb_spec k0 k) as [->|Hne]; simpl.
    + destruct (Z.eqb_spec k k') as [Heq|Hne']; [|done].
      subst. by apply dict_get_None.
    + rewrite IH by done.
      destruct (Z.eqb_spec k0 k'), (Z.eqb_spec k k'); (reflexivity || congruence).
Qed.
End Dict.

(** ** First-fit allocation *)

Lemma all_free_inside (m : list string) (n : nat) : ∀ a,
  0 ≤ a → a + Z.of_nat n ≤ Z.of_nat (length m) →
  (all_free m (range a (a + Z.of_nat n)) = Ok true ∧ free_run m a (Z.of_nat n)) ∨
  (all_free m (range a (a + Z.of_nat n)) = Ok false ∧ ¬ free_run m a (Z.of_nat n)).
Proof.
  induction n as [|n IH]; intros a Ha Hn.
  - left. rewrite range_nil by lia. split; [done|]. intros j Hj. lia.
  - rewrite range_cons by lia. simpl.
    rewrite py_getitem_inside by lia.
    destruct (lookup_lt_is_Some_2 m (Z.to_nat a)) as [c Hc]; [lia|].
    rewrite Hc. destruct (String.eqb_spec c "-") as [->|Hne].
    + replace (a + Z.of_nat (S n)) with (a + 1 + Z.of_nat n) by lia.
      destruct (IH (a + 1)) as [[-> Hfree]|[-> Hocc]]; [lia | lia | left | right];
        (split; [done|]).
      * intros j Hj. destruct (decide (j = a)) as [->|Hja]; [done|].
        apply Hfree. lia.
      * intros Hfree. apply Hocc. intros j Hj. apply Hfree. lia.
    + right. split; [done|]. intros Hfree.
      specialize (Hfree a). rewrite Hc in Hfree. 
      assert (Some c = Some "-") as [= ->] by (apply Hfree; lia). done.
Qed.

Lemma alloc_scan_range (s : MemoryManager.t) (sz : Z) (n : nat) : ∀ c,
  let N := Z.of_nat (length (memory s)) in
  1 ≤ sz → 0 ≤ c → c + Z.of_nat n = N - sz + 1 →
  let r := alloc_scan s sz (range c (N - sz + 1)) in
  (r = (s, Err InsufficientMemory) ∧
   ∀ i, c ≤ i ≤ N - sz → ¬ free_run (memory s) i sz) ∨
  (∃ i, c ≤ i ≤ N - sz ∧ free_run (memory s) i sz ∧
        (∀ i', c ≤ i' < i → ¬ free_run (memory s) i' sz) ∧
        allocated_at s sz i r).
Proof.
  induction n as [|n IH]; cbv zeta in *; intros c Hsz Hc Hn.
  - left. rewrite range_nil by lia. split; [done|]. intros i Hi. lia.
  - rewrite range_cons by lia. simpl.
    destruct (all_free_inside (memory s) (Z.to_nat sz) c) as [[Hall Hfree]|[Hall Hocc]];
      [lia | lia | |];
      replace (Z.of_nat (Z.to_nat sz)) with sz in * by lia; rewrite Hall.
    + right. exists c. split; [lia|]. split; [done|]. split; [intros i' Hi'; lia|].
      destruct (set_range_inside_Z (memory s) c (c + sz) "X") as (m & -> & Hlen & Hm);
        [lia | lia | lia |].
      exists m. done.
    + destruct (IH (c + 1)) as [[-> Hnone]|(i & Hi & Hfree & Hlow & Hat)];
        [lia | lia | lia | left | right].
      * split; [done|]. intros i Hi.
        destruct (decide (i = c)) as [->|Hic]; [done|]. apply Hnone. lia.
      * exists i. split; [lia|]. split; [done|]. split; [|done].
        intros i' Hi'. destruct (decide (i' = c)) as [->|Hic]; [done|].
        apply Hlow. lia.
Qed.

(** The possible outcomes of [alloc]. *)
Lemma alloc_cases (s : MemoryManager.t) (sz : Z) :
  let N := Z.of_nat (length (memory s)) in
  ((sz < 1 ∨ N < sz) ∧ alloc s sz = (s, Err InvalidAllocSize)) ∨
  (1 ≤ sz ≤ N ∧ alloc s sz = (s, Err InsufficientMemory) ∧
   ∀ i, 0 ≤ i ≤ N - sz → ¬ free_run (memory s) i sz) ∨
  (1 ≤ sz ≤ N ∧
   ∃ i, 0 ≤ i ≤ N - sz ∧ free_run (memory s) i sz ∧
        (∀ i', 0 ≤ i' < i → ¬ free_run (memory s) i' sz) ∧
        allocated_at s sz i (alloc s sz)).
Proof.
  cbv zeta. unfold alloc.
  destruct (Z.leb_spec sz 0); simpl; [left; split; [lia|done]|].
  destruct (Z.ltb_spec (Z.of_nat (length (memory s))) sz); simpl;
    [left; split; [lia|done]|].
  right.
  destruct (alloc_scan_range s sz
              (Z.to_nat (Z.of_nat (length (memory s)) - sz + 1)) 0)
    as [[Hr Hnone]|Hsome]; [lia | lia | lia | left | right].
  - split; [lia|]. done.
  - split; [lia|]. done.
Qed.

(** C1. [alloc] is a first-fit linear scan over the occupancy array
    [self.memory] of length [N]: a request with [size < 1] or [size > N]
    raises the invalid-size [ValueError] whatever the array holds; for
    [1 <= size <= N], when some offset [i] in [0 .. N - size] has the cells
    [i .. i+size-1] all free, the block is placed at the lowest such offset;
    when no offset has, the call raises [MemoryError]. *)
Theorem alloc_first_fit (s : MemoryManager.t) (sz : Z) :
  let N := Z.of_nat (length (memory s)) in
  (sz < 1 ∨ N < sz →
     alloc s sz = (s, Err InvalidAllocSize) ∧
     kind_of InvalidAllocSize = InvalidArgument) ∧
  (1 ≤ sz ≤ N →
     (∀ i, 0 ≤ i ≤ N - sz →
           free_run (memory s) i sz →
           (∀ i', 0 ≤ i' < i → ¬ free_run (memory s) i' sz) →
           allocated_at s sz i (alloc s sz)) ∧
     ((∀ i, 0 ≤ i ≤ N - sz → ¬ free_run (memory s) i sz) →
        alloc s sz = (s, Err InsufficientMemory) ∧
        kind_of InsufficientMemory = OutOfMemory)).
Proof.
  cbv zeta.
  destruct (alloc_cases s sz)
    as [[Hbad Hr]|[(Hsz & Hr & Hnone)|(Hsz & i0 & Hi0 & Hfree0 & Hlow0 & Hat)]].
  - split; [done|]. intros ?; lia.
  - split; [intros ?; lia|]. intros _. split; [|done].
    intros i Hi Hfree _. exfalso. by apply (Hnone i).
  - split; [intros ?; lia|]. intros _. split.
    + intros i Hi Hfree Hlow.
      destruct (Z.lt_trichotomy i i0) as [Hlt|[->|Hgt]]; [|done|].
      * exfalso. apply (Hlow0 i); [lia | done].
      * exfalso. apply (Hlow i0); [lia | done].
    + intros Hnone. exfalso. by apply (Hnone i0).
Qed.

(** ** Writing into a block *)

Lemma py_setitem_nonneg_Some {A} (l l' : list A) (i : Z) (v : A) :
  0 ≤ i → py_setitem l i v = Some l' →
  i < Z.of_nat (length l) ∧ l' = <[Z.to_nat i:=v]> l.
Proof.
  intros Hi. unfold py_setitem, py_index.
  destruct (Z.leb_spec 0 i); [|lia].
  destruct (Z.ltb_spec i (Z.of_nat (length l))); simpl.
  - intros [= <-]. done.
  - destruct (Z.leb_spec (- Z.of_nat (length l)) i), (Z.ltb_spec i 0); simpl;
      (lia || done).
Qed.

Lemma write_chars_inside (chars : list Ascii.ascii) : ∀ (cells : list string) (o i : Z),
  0 ≤ o + i →
  o + i + Z.of_nat (length chars) ≤ Z.of_nat (length cells) →
  write_chars cells o i chars =
    (take (Z.to_nat (o + i)) cells ++ (cell_of <$> chars) ++
       drop (Z.to_nat (o + i) + length chars)%nat cells, None).
Proof.
  induction chars as [|c chars IH]; intros cells o i Hoi Hlen;
    cbn [length] in Hlen; cbn [write_chars fmap list_fmap length].
  - simpl. by rewrite Nat.add_0_r, take_drop.
  - rewrite py_setitem_inside by lia.
    rewrite IH; [|lia|rewrite length_insert; lia].
    f_equal.
    replace (Z.to_nat (o + (i + 1))) with (S (Z.to_nat (o + i))) by lia.
    rewrite (take_S_r _ _ (String c EmptyString))
      by (apply list_lookup_insert_eq; lia).
    rewrite take_insert_ge by lia.
    rewrite drop_insert_lt by lia.
    rewrite <- app_assoc. simpl.
    by replace (Z.to_nat (o + i) + S (length chars))%nat
      with (S (Z.to_nat (o + i) + length chars)) by lia.
Qed.

Lemma write_chars_None_bound (chars : list Ascii.ascii) :
  ∀ (cells cells' : list string) (o i : Z),
  0 ≤ o + i →
  write_chars cells o i chars = (cells', None) →
  chars = [] ∨ o + i + Z.of_nat (length chars) ≤ Z.of_nat (length cells).
Proof.
  induction chars as [|c chars IH]; intros cells cells' o i Hoi Hw; [by left|].
  right. simpl in Hw.
  destruct (py_setitem cells (o + i) (String c EmptyString)) as [cells1|] eqn:Hset;
    [|done].
  apply py_setitem_nonneg_Some in Hset as [Hlt ->]; [|done].
  apply IH in Hw as [->|Hb]; [| |lia]; simpl.
  - lia.
  - rewrite length_insert in Hb. lia.
Qed.

(** A payload write that does not raise stays inside the list, keeps its
    length, changes nothing outside the written positions and leaves the
    written characters there. *)
Lemma write_chars_None_spec (chars : list Ascii.ascii)
    (cells cells' : list string) (o : Z) :
  0 ≤ o →
  write_chars cells o 0 chars = (cells', None) →
  length cells' = length cells ∧
  (∀ k : nat, Z.of_nat k < o ∨ o + Z.of_nat (length chars) ≤ Z.of_nat k →
              cells' !! k = cells !! k) ∧
  take (length chars) (drop (Z.to_nat o) cells') = cell_of <$> chars.
Proof.
  intros Ho Hw.
  destruct (write_chars_None_bound chars cells cells' o 0) as [->|Hbound];
    [lia | done | |].
  - simpl in Hw. injection Hw as <-. done.
  - rewrite write_chars_inside in Hw by lia. injection Hw as <-.
    replace (o + 0) with o in * by lia.
    assert (length (take (Z.to_nat o) cells) = Z.to_nat o) as Htake
      by (rewrite length_take; lia).
    split; [|split].
    + rewrite !length_app, Htake, length_drop, length_fmap. lia.
    + intros k [Hk|Hk].
      * rewrite lookup_app_l by lia. apply lookup_take_lt. lia.
      * rewrite lookup_app_r by lia.
        rewrite lookup_app_r by (rewrite length_fmap; lia).
        rewrite lookup_drop. f_equal. rewrite length_fmap. lia.
    + rewrite drop_app_length' by done.
      apply take_app_length'. by rewrite length_fmap.
Qed.

Lemma length_list_ascii_of_string (d : string) :
  length (String.list_ascii_of_string d) = String.length d.
Proof. induction d as [|c d IH]; simpl; [done | by rewrite IH]. Qed.

(** The possible outcomes of [write]. *)
Lemma write_cases (s : MemoryManager.t) (h o : Z) (d : string) :
  (dict_get (allocations s) h = None ∧ write s h o d = (s, Err (NoSuchBlock h))) ∨
  (∃ b, dict_get (allocations s) h = Some b ∧
     ((o < 0 ∨ MemoryBlock.size b ≤ o) ∧
      write s h o d = (s, Err (WriteOffsetOutOfBounds o h)) ∨
      0 ≤ o < MemoryBlock.size b ∧
      MemoryBlock.size b - o < Z.of_nat (String.length d) ∧
      write s h o d = (s, Err (DataExceedsBlock (MemoryBlock.size b - o))) ∨
      0 ≤ o < MemoryBlock.size b ∧
      Z.of_nat (String.length d) ≤ MemoryBlock.size b - o ∧
      ∃ cells err,
        write_chars (MemoryBlock.data b) o 0 (String.list_ascii_of_string d) = (cells, err) ∧
        write s h o d =
          (with_allocations s
             (dict_set (allocations s) h (MemoryBlock.with_data b cells)),
           match err with Some e => Err e | None => Ok tt end))).
Proof.
  unfold write. destruct (dict_get (allocations s) h) as [b|]; [right|left; done].
  exists b. split; [done|].
  destruct (Z.ltb_spec o 0); simpl; [left; split; [lia|done]|].
  destruct (Z.leb_spec (MemoryBlock.size b) o); simpl; [left; split; [lia|done]|].
  right.
  destruct (Z.ltb_spec (MemoryBlock.size b - o) (Z.of_nat (String.length d)));
    [left; split; [lia|done]|].
  right. split; [lia|]. split; [lia|].
  destruct (write_chars _ _ _ _) as [cells err]. eauto.
Qed.

(** C8. A successful [write(block_id, offset, data)] leaves the occupancy
    array, the counter, the keys of the table and every other block as
    they are; the written block keeps its start and size, and its payload
    changes at most at the positions [offset .. offset+len(data)-1]. *)
Theorem write_frame (s s' : MemoryManager.t) (h o : Z) (d : string) :
  write s h o d = (s', Ok tt) →
  memory s' = memory s ∧
  next_id s' = next_id s ∧
  size s' = size s ∧
  (allocations s').*1 = (allocations s).*1 ∧
  (∀ h', h' ≠ h → dict_get (allocations s') h' = dict_get (allocations s) h') ∧
  ∃ b b',
    dict_get (allocations s) h = Some b ∧
    dict_get (allocations s') h = Some b' ∧
    MemoryBlock.start b' = MemoryBlock.start b ∧
    MemoryBlock.size b' = MemoryBlock.size b ∧
    length (MemoryBlock.data b') = length (MemoryBlock.data b) ∧
    ∀ k : nat,
      Z.of_nat k < o ∨ o + Z.of_nat (String.length d) ≤ Z.of_nat k →
      MemoryBlock.data b' !! k = MemoryBlock.data b !! k.
Proof.
  intros Hw.
  destruct (write_cases s h o d)
    as [[_ Hr]|(b & Hb & [[_ Hr]|[(_ & _ & Hr)|(Ho & Hd & cells & err & Hc & Hr)]])];
    rewrite Hr in Hw; try discriminate.
  destruct err as [e|]; [discriminate|]. injection Hw as <-. simpl.
  repeat split.
  - apply dict_set_keys_present, dict_get_is_Some. by rewrite Hb.
  - intros h' Hh'. rewrite dict_get_set. destruct (Z.eqb_spec h h'); [congruence|done].
  - exists b, (MemoryBlock.with_data b cells).
    rewrite dict_get_set, Z.eqb_refl. repeat split; [done|..]; simpl.
    + eapply write_chars_None_spec; [|exact Hc]. lia.
    + intros k Hk. rewrite <- length_list_ascii_of_string in Hk.
      eapply write_chars_None_spec; [|exact Hc|exact Hk]. lia.
Qed.

(** ** Reading from a block *)

Lemma read_state (s : MemoryManager.t) (h o n : Z) : fst (read s h o n) = s.
Proof.
  unfold read.
  repeat match goal with
         | |- context [if ?c then _ else _] => destruct c
         | |- context [match ?x with Some _ => _ | None => _ end] => destruct x
         end; reflexivity.
Qed.

(** The possible outcomes of [read], in the order of its tests. *)
Lemma read_cases (s : MemoryManager.t) (h o n : Z) :
  let N := Z.of_nat (length (memory s)) in
  match dict_get (allocations s) h with
  | None => read s h o n = (s, Err (NoSuchBlock h))
  | Some b =>
      if o <? 0 then read s h o n = (s, Err NegativeOffset)
      else if n <=? 0 then read s h o n = (s, Err LengthNotPositive)
      else if N <=? o then read s h o n = (s, Err OffsetExceedsMemory)
      else if N <? o + n then read s h o n = (s, Err ReadExceedsMemory)
      else if MemoryBlock.size b <? o + n
      then read s h o n = (s, Err (ReadRangeOutOfBounds h))
      else read s h o n =
             (s, Ok (join (py_slice (MemoryBlock.data b) o (o + n))))
  end.
Proof.
  cbv zeta. unfold read, dict_contains.
  destruct (dict_get (allocations s) h) as [b|]; simpl; [|done].
  destruct (o <? 0); simpl; [done|].
  destruct (n <=? 0); [done|].
  destruct (_ <=? o); [done|].
  destruct (_ <? o + n); [done|].
  destruct (_ <? o + n); done.
Qed.

(** C5, as the code has it.  [read] tests, in this order: the handle is in
    the table (else the unknown-handle error); [offset >= 0] (else an
    out-of-bounds error); [length > 0] (else an invalid-argument error);
    the range [offset .. offset+length-1] lies inside the region and inside
    the block (else an out-of-bounds error).  So an unknown handle always
    gives the unknown-handle error, and a known handle with a negative
    offset gives an out-of-bounds error whatever the length is. *)
Theorem read_check_order (s : MemoryManager.t) (h o n : Z) :
  let N := Z.of_nat (length (memory s)) in
  let r := snd (read s h o n) in
  (dict_get (allocations s) h = None → raises r UnknownHandle) ∧
  (∀ b, dict_get (allocations s) h = Some b →
     (o < 0 → raises r OutOfBounds) ∧
     (0 ≤ o → n ≤ 0 → raises r InvalidArgument) ∧
     (0 ≤ o → 0 < n → N < o + n ∨ MemoryBlock.size b < o + n →
        raises r OutOfBounds) ∧
     (0 ≤ o → 0 < n → o + n ≤ N → o + n ≤ MemoryBlock.size b →
        r = Ok (join (py_slice (MemoryBlock.data b) o (o + n))))).
Proof.
  cbv zeta. pose proof (read_cases s h o n) as Hr. cbv zeta in Hr.
  split.
  - intros Hnone. rewrite Hnone in Hr. rewrite Hr. by eexists.
  - intros b Hb. rewrite Hb in Hr. revert Hr. ztest; intros ->; simpl;
      repeat split; intros; try lia; try (by eexists); try done.
Qed.

(** ** The invariant of the manager *)

Lemma init_cases (n : Z) :
  (n ≤ 0 ∧ init n = Err MemorySizeNotPositive) ∨
  (0 < n ∧ init n = Ok (MemoryManager.mk n (replicate (Z.to_nat n) "-") [] 1)).
Proof. unfold init. destruct (Z.leb_spec n 0); [left|right]; (split; [lia|done]). Qed.

Lemma Inv_init (n : Z) (s : MemoryManager.t) : init n = Ok s → Inv s.
Proof.
  destruct (init_cases n) as [[_ ->]|[Hn ->]]; [done|]. intros [= <-].
  split; simpl.
  - rewrite length_replicate. lia.
  - apply NoDup_nil_2.
  - lia.
  - done.
  - done.
  - done.
  - intros j (h & b & Hb & _). done.
  - intros j Hj _. rewrite length_replicate in Hj. by apply lookup_replicate_2.
Qed.

(** A run of free cells meets no live block. *)
Lemma free_run_disjoint (s : MemoryManager.t) (i sz h : Z) (b : MemoryBlock.t) :
  Inv s → 0 ≤ i → 1 ≤ sz → free_run (memory s) i sz →
  dict_get (allocations s) h = Some b →
  disjoint_blocks (MemoryBlock.init i sz) b.
Proof.
  intros HI Hi Hsz Hfree Hb. unfold disjoint_blocks. simpl.
  destruct (inv_block s HI h b Hb) as (Hbs & Hb0 & _ & _).
  destruct (Z.le_gt_cases (i + sz) (MemoryBlock.start b)) as [|H1]; [by left|].
  destruct (Z.le_gt_cases (MemoryBlock.start b + MemoryBlock.size b) i) as [|H2];
    [by right|].
  exfalso. set (j := Z.max i (MemoryBlock.start b)).
  assert (memory s !! Z.to_nat j = Some "X") as HX.
  { apply (inv_occupied s HI). exists h, b. split; [done|]. lia. }
  rewrite Hfree in HX by lia. done.
Qed.

Lemma Inv_alloc (s : MemoryManager.t) (sz : Z) : Inv s → Inv (fst (alloc s sz)).
Proof.
  intros HI.
  destruct (alloc_cases s sz)
    as [[_ ->]|[(_ & -> & _)|(Hsz & i & Hi & Hfree & _ & m & -> & Hlen & Hm)]];
    [done | done |]. simpl.
  assert (∀ h b, dict_get (dict_set (allocations s) (next_id s)
                             (MemoryBlock.init i sz)) h = Some b →
                 h = next_id s ∧ b = MemoryBlock.init i sz ∨
                 h ≠ next_id s ∧ dict_get (allocations s) h = Some b) as Hget.
  { intros h b. rewrite dict_get_set.
    destruct (Z.eqb_spec (next_id s) h) as [<-|Hne]; [intros [= <-]; by left|].
    intros Hb. right. split; [congruence|done]. }
  assert (∀ j : Z, covered (dict_set (allocations s) (next_id s)
                              (MemoryBlock.init i sz)) j ↔
                   i ≤ j < i + sz ∨ covered (allocations s) j) as Hcov.
  { intros j. split.
    - intros (h & b & Hb & Hj). apply Hget in Hb as [[-> ->]|[_ Hb]].
      + by left.
      + right. by exists h, b.
    - intros [Hj|(h & b & Hb & Hj)].
      + exists (next_id s), (MemoryBlock.init i sz).
        rewrite dict_get_set, Z.eqb_refl. done.
      + exists h, b. split; [|done]. rewrite dict_get_set.
        pose proof (inv_ids s HI h b Hb).
        destruct (Z.eqb_spec (next_id s) h); [lia|done]. }
  pose proof (inv_length s HI) as HN.
  split; simpl.
  - lia.
  - apply dict_set_NoDup, (inv_keys s HI).
  - pose proof (inv_next s HI). lia.
  - intros h b Hb. apply Hget in Hb as [[-> ->]|[_ Hb]].
    + pose proof (inv_next s HI). lia.
    + pose proof (inv_ids s HI h b Hb). lia.
  - intros h b Hb. apply Hget in Hb as [[-> ->]|[_ Hb]].
    + simpl. rewrite length_replicate. lia.
    + apply (inv_block s HI h b Hb).
  - intros h1 h2 b1 b2 Hne Hb1 Hb2.
    apply Hget in Hb1 as [[-> ->]|[Hn1 Hb1]]; apply Hget in Hb2 as [[-> ->]|[Hn2 Hb2]].
    + done.
    + eapply free_run_disjoint; eauto; lia.
    + cut (disjoint_blocks (MemoryBlock.init i sz) b1);
        [unfold disjoint_blocks; tauto|].
      eapply free_run_disjoint; eauto; lia.
    + by apply (inv_disjoint s HI h1 h2).
  - intros j Hj. apply Hcov in Hj. rewrite Hm.
    destruct Hj as [Hj|Hj]; ztest; try done; by apply (inv_occupied s HI).
  - intros j Hj Hncov. rewrite Hm.
    ztest.
    + exfalso. apply Hncov, Hcov. left. lia.
    + apply (inv_free s HI); [lia|]. intros Hc. apply Hncov, Hcov. by right.
    + apply (inv_free s HI); [lia|]. intros Hc. apply Hncov, Hcov. by right.
Qed.

(** The possible outcomes of [free] in a state that satisfies the
    invariant. *)
Lemma free_cases (s : MemoryManager.t) (h : Z) :
  Inv s →
  (dict_get (allocations s) h = None ∧ free s h = (s, Err (NoSuchBlock h))) ∨
  (∃ b m,
     dict_get (allocations s) h = Some b ∧
     free s h = (MemoryManager.mk (size s) m (dict_del (allocations s) h) (next_id s),
                 Ok true) ∧
     length m = length (memory s) ∧
     ∀ k : nat, m !! k =
       if (MemoryBlock.start b <=? Z.of_nat k) &&
          (Z.of_nat k <? MemoryBlock.start b + MemoryBlock.size b)
       then Some "-" else memory s !! k).
Proof.
  intros HI. unfold free, dict_contains, dict_pop.
  destruct (dict_get (allocations s) h) as [b|] eqn:Hb; simpl; [right|left; done].
  destruct (inv_block s HI h b Hb) as (Hsz & Hst & Hend & _).
  pose proof (inv_length s HI) as HN.
  destruct (set_range_inside_Z (memory s) (MemoryBlock.start b)
              (MemoryBlock.start b + MemoryBlock.size b) "-")
    as (m & -> & Hlen & Hm); [lia | lia | lia |].
  exists b, m. done.
Qed.

Lemma Inv_free (s : MemoryManager.t) (h : Z) : Inv s → Inv (fst (free s h)).
Proof.
  intros HI.
  destruct (free_cases s h HI) as [[_ ->]|(b & m & Hb & -> & Hlen & Hm)]; [done|].
  simpl.
  assert (∀ h' b', dict_get (dict_del (allocations s) h) h' = Some b' →
                   h' ≠ h ∧ dict_get (allocations s) h' = Some b') as Hget.
  { intros h' b'. rewrite dict_get_del by apply (inv_keys s HI).
    destruct (Z.eqb_spec h h'); [done|]. intros Hb'. split; [congruence|done]. }
  pose proof (inv_length s HI) as HN.
  split; simpl.
  - lia.
  - apply dict_del_NoDup, (inv_keys s HI).
  - apply (inv_next s HI).
  - intros h' b' Hb'. apply Hget in Hb' as [_ Hb']. apply (inv_ids s HI h' b' Hb').
  - intros h' b' Hb'. apply Hget in Hb' as [_ Hb']. apply (inv_block s HI h' b' Hb').
  - intros h1 h2 b1 b2 Hne Hb1 Hb2.
    apply Hget in Hb1 as [_ Hb1]. apply Hget in Hb2 as [_ Hb2].
    by apply (inv_disjoint s HI h1 h2).
  - intros j (h' & b' & Hb' & Hj). apply Hget in Hb' as [Hne Hb'].
    pose proof (inv_disjoint s HI h' h b' b Hne Hb' Hb) as Hd.
    unfold disjoint_blocks in Hd. rewrite Hm.
    ztest; apply (inv_occupied s HI); by exists h', b'.
  - intros j Hj Hncov. rewrite Hm. ztest; try done;
      (apply (inv_free s HI); [lia|]); intros (h' & b' & Hb' & Hj');
      apply Hncov; exists h', b'; (split; [|done]);
      rewrite dict_get_del by apply (inv_keys s HI);
      (destruct (Z.eqb_spec h h') as [->|]; [|done]);
      rewrite Hb in Hb'; injection Hb' as <-; lia.
Qed.

(** In a state that satisfies the invariant, [write] either raises one
    of its three validation errors and changes nothing, or succeeds. *)
Lemma write_cases_Inv (s : MemoryManager.t) (h o : Z) (d : string) :
  Inv s →
  (∃ e, write s h o d = (s, Err e) ∧
        (e = NoSuchBlock h ∧ dict_get (allocations s) h = None ∨
         ∃ b, dict_get (allocations s) h = Some b ∧
              (e = WriteOffsetOutOfBounds o h ∧ (o < 0 ∨ MemoryBlock.size b ≤ o) ∨
               e = DataExceedsBlock (MemoryBlock.size b - o) ∧
               0 ≤ o < MemoryBlock.size b ∧
               MemoryBlock.size b - o < Z.of_nat (String.length d)))) ∨
  (∃ b cells,
     dict_get (allocations s) h = Some b ∧
     0 ≤ o < MemoryBlock.size b ∧
     Z.of_nat (String.length d) ≤ MemoryBlock.size b - o ∧
     write_chars (MemoryBlock.data b) o 0 (String.list_ascii_of_string d) =
       (cells, None) ∧
     write s h o d =
       (with_allocations s
          (dict_set (allocations s) h (MemoryBlock.with_data b cells)),
        Ok tt)).
Proof.
  intros HI.
  destruct (write_cases s h o d)
    as [[Hn Hr]|(b & Hb & [[Ho Hr]|[(Ho & Hd & Hr)|(Ho & Hd & cells & err & Hc & Hr)]])].
  - left. eexists. split; [exact Hr|]. by left.
  - left. eexists. split; [exact Hr|]. right. exists b. split; [done|]. by left.
  - left. eexists. split; [exact Hr|]. right. exists b. split; [done|]. by right.
  - right. exists b, cells.
    destruct (inv_block s HI h b Hb) as (_ & _ & _ & Hlen).
    pose proof Hc as Hc'.
    rewrite write_chars_inside in Hc'
      by (rewrite ?length_list_ascii_of_string; lia).
    injection Hc' as _ <-. done.
Qed.

Lemma Inv_write (s : MemoryManager.t) (h o : Z) (d : string) :
  Inv s → Inv (fst (write s h o d)).
Proof.
  intros HI.
  destruct (write_cases_Inv s h o d HI)
    as [(e & -> & _)|(b & cells & Hb & Ho & Hd & Hc & ->)]; [done|].
  simpl.
  destruct (write_chars_None_spec _ _ _ o (proj1 Ho) Hc) as (Hlen & _ & _).
  assert (∀ h' b', dict_get (dict_set (allocations s) h
                               (MemoryBlock.with_data b cells)) h' = Some b' →
            ∃ b0, dict_get (allocations s) h' = Some b0 ∧
                  MemoryBlock.start b' = MemoryBlock.start b0 ∧
                  MemoryBlock.size b' = MemoryBlock.size b0 ∧
                  length (MemoryBlock.data b') = length (MemoryBlock.data b0))
    as Hget.
  { intros h' b'. rewrite dict_get_set.
    destruct (Z.eqb_spec h h') as [<-|Hne].
    - intros [= <-]. exists b. done.
    - intros Hb'. exists b'. done. }
  assert (∀ j, covered (dict_set (allocations s) h (MemoryBlock.with_data b cells)) j ↔
               covered (allocations s) j) as Hcov.
  { intros j. split.
    - intros (h' & b' & Hb' & Hj). apply Hget in Hb' as (b0 & Hb0 & Hs & Hz & _).
      exists h', b0. split; [done|]. lia.
    - intros (h' & b' & Hb' & Hj).
      destruct (decide (h' = h)) as [->|Hne].
      + exists h, (MemoryBlock.with_data b cells).
        rewrite dict_get_set, Z.eqb_refl. split; [done|]. simpl.
        rewrite Hb in Hb'. by injection Hb' as <-.
      + exists h', b'. split; [|done]. rewrite dict_get_set.
        destruct (Z.eqb_spec h h'); [congruence|done]. }
  split; simpl.
  - apply (inv_length s HI).
  - rewrite dict_set_keys_present; [apply (inv_keys s HI)|].
    apply dict_get_is_Some. by rewrite Hb.
  - apply (inv_next s HI).
  - intros h' b' Hb'. apply Hget in Hb' as (b0 & Hb0 & _).
    apply (inv_ids s HI h' b0 Hb0).
  - intros h' b' Hb'. apply Hget in Hb' as (b0 & Hb0 & Hs & Hz & Hl).
    pose proof (inv_block s HI h' b0 Hb0). lia.
  - intros h1 h2 b1 b2 Hne Hb1 Hb2.
    apply Hget in Hb1 as (c1 & Hc1 & ? & ? & _).
    apply Hget in Hb2 as (c2 & Hc2 & ? & ? & _).
    pose proof (inv_disjoint s HI h1 h2 c1 c2 Hne Hc1 Hc2) as Hdis.
    unfold disjoint_blocks in *. lia.
  - intros j Hj. apply Hcov in Hj. by apply (inv_occupied s HI).
  - intros j Hj Hncov. apply (inv_free s HI); [done|]. by rewrite <- Hcov.
Qed.

Lemma Inv_read (s : MemoryManager.t) (h o n : Z) : Inv s → Inv (fst (read s h o n)).
Proof. by rewrite read_state. Qed.

(** ** Defragmentation *)

Lemma insert_by_start_perm x l : insert_by_start x l ≡ₚ x :: l.
Proof.
  induction l as [|y l IH]; simpl; [done|].
  destruct (_ <=? _); [done|]. rewrite IH. apply Permutation_swap.
Qed.

Lemma sorted_by_start_perm l : sorted_by_start l ≡ₚ l.
Proof.
  induction l as [|x l IH]; simpl; [done|].
  by rewrite insert_by_start_perm, IH.
Qed.

Lemma insert_by_start_sorted x l :
  StronglySorted by_start l → StronglySorted by_start (insert_by_start x l).
Proof.
  induction l as [|y l IH]; simpl; intros Hs.
  - apply StronglySorted_cons. split; [apply Forall_nil_2 | done].
  - apply StronglySorted_cons in Hs as [Hy Hs].
    destruct (Z.leb_spec (MemoryBlock.start (snd x)) (MemoryBlock.start (snd y)))
      as [Hle|Hgt].
    + apply StronglySorted_cons. split.
      * apply Forall_cons. split; [exact Hle|].
        eapply Forall_impl; [exact Hy|]. unfold by_start. intros z Hz. lia.
      * apply StronglySorted_cons. done.
    + apply StronglySorted_cons. split; [|auto].
      rewrite insert_by_start_perm. apply Forall_cons. split; [|done].
      unfold by_start. lia.
Qed.

Lemma sorted_by_start_sorted l : StronglySorted by_start (sorted_by_start l).
Proof.
  induction l as [|x l IH]; simpl; [constructor|].
  by apply insert_by_start_sorted.
Qed.

Lemma relocate_keys c items : (relocate c items).*1 = items.*1.
Proof.
  revert c. induction items as [|[h b] items IH]; intros c; simpl; [done|].
  f_equal. apply IH.
Qed.

Lemma total_size_nonneg items :
  (∀ kv, kv ∈ items → 0 ≤ MemoryBlock.size (snd kv)) → 0 ≤ total_size items.
Proof.
  induction items as [|x items IH]; simpl; intros Hsz; [lia|].
  pose proof (Hsz x (list_elem_of_here _ _)).
  assert (0 ≤ total_size items); [|lia].
  apply IH. intros kv Hkv. apply Hsz. by apply list_elem_of_further.
Qed.

(** The loop of [defragment] never raises when the blocks fit the
    region; it builds the relocated table and marks the cells the blocks
    now take. *)
Lemma defragment_loop_spec items : ∀ (nm : list string) na curr,
  0 ≤ curr →
  (∀ kv, kv ∈ items → 0 ≤ MemoryBlock.size (snd kv)) →
  curr + total_size items ≤ Z.of_nat (length nm) →
  NoDup (na.*1 ++ items.*1) →
  ∃ m, defragment_loop items nm na curr = Ok (m, na ++ relocate curr items) ∧
       length m = length nm ∧
       ∀ k : nat, m !! k =
         if (curr <=? Z.of_nat k) && (Z.of_nat k <? curr + total_size items)
         then Some "X" else nm !! k.
Proof.
  induction items as [|[h b] items IH]; intros nm na curr Hc Hsz Hfit Hnd.
  - exists nm. simpl. rewrite app_nil_r. repeat split. intros k. ztest; done.
  - cbn [defragment_loop relocate total_size foldr snd] in *.
    fold (total_size items) in *.
    pose proof (Hsz (h, b) (list_elem_of_here _ _)) as Hb. simpl in Hb.
    assert (0 ≤ total_size items) as Htot.
    { apply total_size_nonneg. intros kv Hkv. apply Hsz. by apply list_elem_of_further. }
    replace ((λ i, curr + i) <$> range 0 (MemoryBlock.size b))
      with (range curr (curr + MemoryBlock.size b)).
    2:{ unfold range. change (λ i, curr + i) with (Z.add curr).
        rewrite fmap_add_seqZ. f_equal; lia. }
    destruct (set_range_inside_Z nm curr (curr + MemoryBlock.size b) "X")
      as (m1 & -> & Hlen1 & Hm1); [lia | lia | lia |].
    assert (h ∉ na.*1) as Hfresh.
    { apply NoDup_app in Hnd as (_ & Hdis & _). intros Hin.
      apply (Hdis h Hin). simpl. apply list_elem_of_here. }
    rewrite dict_set_fresh by done.
    destruct (IH m1 (na ++ [(h, MemoryBlock.mk curr (MemoryBlock.size b) (MemoryBlock.data b))])
                (curr + MemoryBlock.size b)) as (m & Hm & Hlen & Hlk).
    + lia.
    + intros kv Hkv. apply Hsz. by apply list_elem_of_further.
    + lia.
    + rewrite fmap_app. simpl. rewrite <- app_assoc. exact Hnd.
    + exists m. unfold MemoryBlock.with_data, MemoryBlock.init. simpl.
      rewrite Hm, <- app_assoc. simpl. split; [done|]. split; [congruence|].
      intros k. rewrite Hlk, Hm1. ztest; done.
Qed.

Lemma elem_of_relocate items : ∀ c h b',
  (∀ kv, kv ∈ items → 0 ≤ MemoryBlock.size (snd kv)) →
  (h, b') ∈ relocate c items →
  ∃ b, (h, b) ∈ items ∧
       MemoryBlock.size b' = MemoryBlock.size b ∧
       MemoryBlock.data b' = MemoryBlock.data b ∧
       c ≤ MemoryBlock.start b' ∧
       MemoryBlock.start b' + MemoryBlock.size b' ≤ c + total_size items.
Proof.
  induction items as [|[h0 b0] items IH]; intros c h b' Hsz Hin; simpl in *.
  - by apply elem_of_nil in Hin.
  - fold (total_size items).
    pose proof (Hsz (h0, b0) (list_elem_of_here _ _)) as Hb0. simpl in Hb0.
    assert (∀ kv, kv ∈ items → 0 ≤ MemoryBlock.size (snd kv)) as Hsz'.
    { intros kv Hkv. apply Hsz. by apply list_elem_of_further. }
    pose proof (total_size_nonneg items Hsz').
    apply elem_of_cons in Hin as [[= -> ->]|Hin].
    + exists b0. simpl. split; [apply list_elem_of_here|]. repeat split; lia.
    + apply IH in Hin as (b & Hb & ? & ? & ? & ?); [|done].
      exists b. split; [by apply list_elem_of_further|]. repeat split; (done || lia).
Qed.

Lemma relocate_elem_of items : ∀ c h b,
  (h, b) ∈ items →
  ∃ a, (h, MemoryBlock.mk a (MemoryBlock.size b) (MemoryBlock.data b))
         ∈ relocate c items.
Proof.
  induction items as [|[h0 b0] items IH]; intros c h b Hin; simpl.
  - by apply elem_of_nil in Hin.
  - apply elem_of_cons in Hin as [[= -> ->]|Hin].
    + exists c. apply list_elem_of_here.
    + destruct (IH (c + MemoryBlock.size b0) h b Hin) as [a Ha].
      exists a. by apply list_elem_of_further.
Qed.

Lemma relocate_lookup items : ∀ c (k : nat) h b,
  items !! k = Some (h, b) →
  relocate c items !! k =
    Some (h, MemoryBlock.mk (c + total_size (take k items))
               (MemoryBlock.size b) (MemoryBlock.data b)).
Proof.
  induction items as [|[h0 b0] items IH]; intros c k h b Hk; [done|].
  destruct k as [|k]; simpl in *.
  - injection Hk as -> ->. do 3 f_equal. lia.
  - rewrite (IH _ _ _ _ Hk). fold (total_size (take k items)).
    do 3 f_equal. lia.
Qed.

Lemma relocate_disjoint items : ∀ c h1 h2 b1 b2,
  (∀ kv, kv ∈ items → 0 ≤ MemoryBlock.size (snd kv)) →
  NoDup items.*1 →
  (h1, b1) ∈ relocate c items → (h2, b2) ∈ relocate c items → h1 ≠ h2 →
  disjoint_blocks b1 b2.
Proof.
  induction items as [|[h0 b0] items IH]; intros c h1 h2 b1 b2 Hsz Hnd H1 H2 Hne;
    simpl in *.
  - by apply elem_of_nil in H1.
  - assert (∀ kv, kv ∈ items → 0 ≤ MemoryBlock.size (snd kv)) as Hsz'.
    { intros kv Hkv. apply Hsz. by apply list_elem_of_further. }
    apply NoDup_cons in Hnd as [_ Hnd].
    unfold disjoint_blocks.
    apply elem_of_cons in H1 as [[= -> ->]|H1];
      apply elem_of_cons in H2 as [[= -> ->]|H2]; simpl.
    + done.
    + apply elem_of_relocate in H2 as (_ & _ & _ & _ & ? & _); [|done]. lia.
    + apply elem_of_relocate in H1 as (_ & _ & _ & _ & ? & _); [|done]. lia.
    + by apply (IH (c + MemoryBlock.size b0) h1 h2).
Qed.

Lemma relocate_covers items : ∀ c j,
  (∀ kv, kv ∈ items → 0 ≤ MemoryBlock.size (snd kv)) →
  c ≤ j < c + total_size items →
  ∃ h b, (h, b) ∈ relocate c items ∧
         MemoryBlock.start b ≤ j < MemoryBlock.start b + MemoryBlock.size b.
Proof.
  induction items as [|[h0 b0] items IH]; intros c j Hsz Hj; simpl in *; [lia|].
  fold (total_size items) in Hj.
  destruct (Z.lt_ge_cases j (c + MemoryBlock.size b0)) as [Hlt|Hge].
  - eexists _, _. split; [apply list_elem_of_here|]. simpl. lia.
  - destruct (IH (c + MemoryBlock.size b0) j) as (h & b & Hb & Hjb); [|lia|].
    { intros kv Hkv. apply Hsz. by apply list_elem_of_further. }
    exists h, b. split; [by apply list_elem_of_further | done].
Qed.

(** Blocks that are sorted by start, do not overlap and lie in
    [c .. n] have sizes that add up to at most [n - c]. *)
Lemma sorted_disjoint_fit items : ∀ c n,
  StronglySorted by_start items →
  NoDup items.*1 →
  c ≤ n →
  (∀ kv, kv ∈ items →
     1 ≤ MemoryBlock.size (snd kv) ∧ c ≤ MemoryBlock.start (snd kv) ∧
     MemoryBlock.start (snd kv) + MemoryBlock.size (snd kv) ≤ n) →
  (∀ x y, x ∈ items → y ∈ items → fst x ≠ fst y →
     disjoint_blocks (snd x) (snd y)) →
  c + total_size items ≤ n.
Proof.
  induction items as [|x items IH]; intros c n Hs Hnd Hcn Hb Hdis; simpl; [lia|].
  fold (total_size items).
  apply StronglySorted_cons in Hs as [Hx Hs].
  simpl in Hnd. apply NoDup_cons in Hnd as [Hkx Hnd].
  destruct (Hb x (list_elem_of_here _ _)) as (Hx1 & Hx2 & Hx3).
  assert (MemoryBlock.start (snd x) + MemoryBlock.size (snd x) + total_size items ≤ n);
    [|lia].
  apply IH; [done | done | lia | |].
  - intros y Hy.
    destruct (Hb y (list_elem_of_further _ _ _ Hy)) as (Hy1 & Hy2 & Hy3).
    split; [done|]. split; [|done].
    rewrite Forall_forall in Hx. pose proof (Hx y Hy) as Hxy. unfold by_start in Hxy.
    assert (fst x ≠ fst y) as Hne.
    { intros Heq. apply Hkx. rewrite Heq.
      apply (list_elem_of_fmap_2 fst) in Hy. exact Hy. }
    pose proof (Hdis x y (list_elem_of_here _ _) (list_elem_of_further _ _ _ Hy) Hne) as Hd.
    unfold disjoint_blocks in Hd. lia.
  - intros y z Hy Hz. apply Hdis; by apply list_elem_of_further.
Qed.

Lemma sorted_items_get (s : MemoryManager.t) (h : Z) (b : MemoryBlock.t) :
  Inv s →
  (h, b) ∈ sorted_by_start (allocations s) ↔ dict_get (allocations s) h = Some b.
Proof.
  intros HI. rewrite sorted_by_start_perm. split.
  - apply elem_of_dict_get, (inv_keys s HI).
  - apply dict_get_elem_of.
Qed.

Lemma sorted_items_NoDup (s : MemoryManager.t) :
  Inv s → NoDup (sorted_by_start (allocations s)).*1.
Proof. intros HI. rewrite sorted_by_start_perm. apply (inv_keys s HI). Qed.

Lemma sorted_items_sizes (s : MemoryManager.t) :
  Inv s →
  ∀ kv, kv ∈ sorted_by_start (allocations s) → 0 ≤ MemoryBlock.size (snd kv).
Proof.
  intros HI [h b] Hkv. apply sorted_items_get in Hkv; [|done].
  destruct (inv_block s HI h b Hkv) as (? & _). simpl. lia.
Qed.

Lemma sorted_items_fit (s : MemoryManager.t) :
  Inv s → total_size (sorted_by_start (allocations s)) ≤ size s.
Proof.
  intros HI.
  apply (sorted_disjoint_fit (sorted_by_start (allocations s)) 0 (size s)).
  - apply sorted_by_start_sorted.
  - by apply sorted_items_NoDup.
  - pose proof (inv_length s HI). lia.
  - intros [h b] Hkv. apply sorted_items_get in Hkv; [|done].
    destruct (inv_block s HI h b Hkv) as (? & ? & ? & _). done.
  - intros [h1 b1] [h2 b2] H1 H2 Hne. simpl in *.
    apply sorted_items_get in H1; [|done]. apply sorted_items_get in H2; [|done].
    by apply (inv_disjoint s HI h1 h2).
Qed.

(** The outcome of [defragment] in a state that satisfies the invariant. *)
Lemma defragment_cases (s : MemoryManager.t) :
  Inv s →
  let items := sorted_by_start (allocations s) in
  ∃ m, defragment s =
         (MemoryManager.mk (size s) m (relocate 0 items) (next_id s), Ok tt) ∧
       length m = length (memory s) ∧
       ∀ k : nat, (k < length (memory s))%nat →
         m !! k = Some (if Z.of_nat k <? total_size items then "X" else "-").
Proof.
  intros HI items. unfold defragment. fold items.
  pose proof (sorted_items_fit s HI) as Hfit. fold items in Hfit.
  pose proof (inv_length s HI) as HN.
  destruct (defragment_loop_spec items (replicate (length (memory s)) "-") [] 0)
    as (m & -> & Hlen & Hm).
  - lia.
  - by apply sorted_items_sizes.
  - rewrite length_replicate. lia.
  - simpl. by apply sorted_items_NoDup.
  - exists m. simpl. rewrite length_replicate in Hlen. split; [done|]. split; [done|].
    intros k Hk. rewrite Hm. ztest; try done; by apply lookup_replicate_2.
Qed.

Lemma Inv_defragment (s : MemoryManager.t) : Inv s → Inv (fst (defragment s)).
Proof.
  intros HI. destruct (defragment_cases s HI) as (m & -> & Hlen & Hm). simpl.
  set (items := sorted_by_start (allocations s)) in *.
  pose proof (sorted_items_fit s HI) as Hfit. fold items in Hfit.
  pose proof (sorted_items_sizes s HI) as Hsz. fold items in Hsz.
  pose proof (sorted_items_NoDup s HI) as Hnd. fold items in Hnd.
  pose proof (inv_length s HI) as HN.
  assert (NoDup (relocate 0 items).*1) as Hnd' by (by rewrite relocate_keys).
  assert (∀ h b', dict_get (relocate 0 items) h = Some b' →
            ∃ b, dict_get (allocations s) h = Some b ∧
                 MemoryBlock.size b' = MemoryBlock.size b ∧
                 MemoryBlock.data b' = MemoryBlock.data b ∧
                 0 ≤ MemoryBlock.start b' ∧
                 MemoryBlock.start b' + MemoryBlock.size b' ≤ total_size items)
    as Hget.
  { intros h b' Hb'. apply dict_get_elem_of in Hb'.
    apply elem_of_relocate in Hb' as (b & Hb & ? & ? & ? & ?); [|done].
    exists b. split; [by apply sorted_items_get|]. repeat split; (done || lia). }
  split; simpl.
  - lia.
  - done.
  - apply (inv_next s HI).
  - intros h b' Hb'. apply Hget in Hb' as (b & Hb & _).
    apply (inv_ids s HI h b Hb).
  - intros h b' Hb'. apply Hget in Hb' as (b & Hb & Hs & Hd & ? & ?).
    destruct (inv_block s HI h b Hb) as (? & _ & _ & Hl).
    rewrite Hs, Hd in *. repeat split; (done || lia).
  - intros h1 h2 b1 b2 Hne Hb1 Hb2.
    apply dict_get_elem_of in Hb1, Hb2.
    by apply (relocate_disjoint items 0 h1 h2).
  - intros j (h & b' & Hb' & Hj). apply Hget in Hb' as (b & _ & _ & _ & ? & ?).
    rewrite Hm by lia. ztest. done.
  - intros j Hj Hncov. rewrite Hm by lia. ztest; [|done].
    exfalso. apply Hncov.
    destruct (relocate_covers items 0 (Z.of_nat j) Hsz) as (h & b & Hb & Hjb); [lia|].
    exists h, b. split; [by apply elem_of_dict_get | done].
Qed.

(** Every reachable state satisfies the invariant. *)
Lemma reachable_Inv (s : MemoryManager.t) : reachable s → Inv s.
Proof.
  induction 1 as [n s Hinit|c s _ IH].
  - by apply (Inv_init n).
  - destruct c as [sz|h| |h o d|h o n]; simpl.
    + pose proof (Inv_alloc s sz IH). by destruct (alloc s sz).
    + pose proof (Inv_free s h IH). by destruct (free s h).
    + pose proof (Inv_defragment s IH). by destruct (defragment s).
    + pose proof (Inv_write s h o d IH). by destruct (write s h o d).
    + pose proof (Inv_read s h o n IH). by destruct (read s h o n).
Qed.

(** ** Properties of the reachable states *)

(** C3. In every reachable state the ranges of two distinct live blocks
    share no cell, and the range of every live block lies inside the
    region [0 .. N-1]. *)
Theorem blocks_disjoint_in_region (s : MemoryManager.t) :
  reachable s →
  (∀ h1 h2 b1 b2, h1 ≠ h2 →
     dict_get (allocations s) h1 = Some b1 →
     dict_get (allocations s) h2 = Some b2 →
     ∀ j, ¬ (in_block b1 j ∧ in_block b2 j)) ∧
  (∀ h b, dict_get (allocations s) h = Some b →
     ∀ j, in_block b j → 0 ≤ j < size s) ∧
  size s = Z.of_nat (length (memory s)).
Proof.
  intros Hr. apply reachable_Inv in Hr as HI. split; [|split].
  - intros h1 h2 b1 b2 Hne Hb1 Hb2 j [H1 H2].
    pose proof (inv_disjoint s HI h1 h2 b1 b2 Hne Hb1 Hb2) as Hd.
    unfold disjoint_blocks, in_block in *. lia.
  - intros h b Hb j Hj. destruct (inv_block s HI h b Hb) as (_ & ? & ? & _).
    unfold in_block in Hj. lia.
  - by rewrite (inv_length s HI).
Qed.

Lemma covered_dec (d : dict MemoryBlock.t) (j : Z) : covered d j ∨ ¬ covered d j.
Proof.
  destruct (decide (Exists (λ kv, dict_get d (fst kv) = Some (snd kv) ∧
                                  in_block (snd kv) j) d)) as [He|Hn].
  - left. apply Exists_exists in He as ([h b] & _ & Hb & Hj). by exists h, b.
  - right. intros (h & b & Hb & Hj). apply Hn, Exists_exists.
    exists (h, b). split; [by apply dict_get_elem_of | done].
Qed.

(** C9. In every reachable state the occupancy array agrees with the
    table: a cell [j] of the region holds ['X'] exactly when it lies in the
    range of a live block, and ['-'] otherwise. *)
Theorem occupancy_in_sync (s : MemoryManager.t) :
  reachable s →
  Z.of_nat (length (memory s)) = size s ∧
  ∀ j : Z, 0 ≤ j < size s →
    (memory s !! Z.to_nat j = Some "X" ↔ covered (allocations s) j) ∧
    (¬ covered (allocations s) j → memory s !! Z.to_nat j = Some "-").
Proof.
  intros Hr. apply reachable_Inv in Hr as HI.
  pose proof (inv_length s HI) as HN. split; [done|].
  intros j Hj.
  assert (¬ covered (allocations s) j → memory s !! Z.to_nat j = Some "-") as Hfree.
  { intros Hn. apply (inv_free s HI); [lia|]. by rewrite Z2Nat.id by lia. }
  split; [split|done].
  - intros HX. destruct (covered_dec (allocations s) j) as [|Hn]; [done|].
    apply Hfree in Hn. congruence.
  - intros Hc. apply (inv_occupied s HI). by rewrite Z2Nat.id by lia.
Qed.

(** C10. The payload list of a fresh block has as many cells as the
    block's size, and in every reachable state the payload of every live
    block still has.  So a [write] that passes its tests never indexes
    outside the payload, and a [read] that passes its tests slices exactly
    [length] cells. *)
Theorem payload_length_is_size (s : MemoryManager.t) :
  reachable s →
  (∀ i sz, 0 ≤ sz →
     Z.of_nat (length (MemoryBlock.data (MemoryBlock.init i sz))) = sz) ∧
  (∀ h b, dict_get (allocations s) h = Some b →
     Z.of_nat (length (MemoryBlock.data b)) = MemoryBlock.size b) ∧
  (∀ h o d, snd (write s h o d) ≠ Err ListIndexOutOfRange) ∧
  (∀ h o d b, dict_get (allocations s) h = Some b →
     0 ≤ o < MemoryBlock.size b →
     Z.of_nat (String.length d) ≤ MemoryBlock.size b - o →
     snd (write s h o d) = Ok tt) ∧
  (∀ h o n b, dict_get (allocations s) h = Some b →
     0 ≤ o → 0 < n → o + n ≤ MemoryBlock.size b →
     length (py_slice (MemoryBlock.data b) o (o + n)) = Z.to_nat n).
Proof.
  intros Hr. apply reachable_Inv in Hr as HI. repeat split.
  - intros i sz Hsz. simpl. rewrite length_replicate. lia.
  - intros h b Hb. apply (inv_block s HI h b Hb).
  - intros h o d.
    destruct (write_cases_Inv s h o d HI)
      as [(e & -> & [[-> _]|(b & _ & [[-> _]|[-> _]])])|(b & cells & _ & _ & _ & _ & ->)];
      done.
  - intros h o d b Hb Ho Hd.
    destruct (write_cases_Inv s h o d HI)
      as [(e & _ & [[_ Hn]|(b' & Hb' & [[_ Ho']|(_ & _ & Hd')])])|(b' & cells & _ & _ & _ & _ & ->)];
      [congruence | | | done];
      rewrite Hb in Hb'; injection Hb' as <-; lia.
  - intros h o n b Hb Ho Hn Hon.
    destruct (inv_block s HI h b Hb) as (_ & _ & _ & Hl).
    rewrite py_slice_inside by lia.
    rewrite length_take, length_drop. lia.
Qed.

(** C6. A call that raises leaves a reachable state exactly as it was:
    the occupancy array, the table with every block's start, size and
    payload, and the counter. *)
Theorem failed_call_is_atomic (s : MemoryManager.t) (c : call) (e : error) :
  reachable s →
  snd (run c s) = Err e →
  fst (run c s) = s.
Proof.
  intros Hr. apply reachable_Inv in Hr as HI.
  destruct c as [sz|h| |h o d|h o n]; simpl.
  - destruct (alloc_cases s sz) as [[_ ->]|[(_ & -> & _)|(_ & i & _ & _ & _ & m & -> & _)]];
      done.
  - destruct (free_cases s h HI) as [[_ ->]|(b & m & _ & -> & _)]; done.
  - destruct (defragment_cases s HI) as (m & -> & _). done.
  - destruct (write_cases_Inv s h o d HI)
      as [(e' & -> & _)|(b & cells & _ & _ & _ & _ & ->)]; done.
  - pose proof (read_state s h o n). by destruct (read s h o n).
Qed.

(** *** The handle counter *)

(** What a call does to the counter, in any state. *)
Lemma next_id_step (s : MemoryManager.t) (c : call) :
  next_id (fst (run c s)) =
    match c, snd (run c s) with
    | Alloc _, Ok _ => next_id s + 1
    | _, _ => next_id s
    end.
Proof.
  destruct c as [sz|h| |h o d|h o n]; simpl.
  - destruct (alloc_cases s sz) as [[_ ->]|[(_ & -> & _)|(_ & i & _ & _ & _ & m & -> & _)]];
      done.
  - unfold free, dict_pop. destruct (negb _); [done|].
    destruct (dict_get _ _); [|done]. by destruct (set_range _ _ _) as [? [?|]].
  - unfold defragment. by destruct (defragment_loop _ _ _ _) as [[? ?]|].
  - destruct (write_cases s h o d)
      as [[_ ->]|(b & _ & [[_ ->]|[(_ & _ & ->)|(_ & _ & cells & err & _ & ->)]])];
      try done; by destruct err.
  - pose proof (read_state s h o n) as Hs. destruct (read s h o n) as [s' r].
    simpl in *. subst s'. by destruct r.
Qed.

Lemma next_id_mono (s : MemoryManager.t) (c : call) :
  next_id s ≤ next_id (fst (run c s)).
Proof.
  rewrite next_id_step. destruct c; try lia. destruct (snd _); lia.
Qed.

(** A call enters no handle into the table but the current value of the
    counter. *)
Lemma step_keys (s : MemoryManager.t) (c : call) (h : Z) :
  Inv s →
  dict_get (allocations s) h = None →
  h ≠ next_id s →
  dict_get (allocations (fst (run c s))) h = None.
Proof.
  intros HI Hh Hne.
  destruct c as [sz|h'| |h' o d|h' o n]; simpl.
  - destruct (alloc_cases s sz) as [[_ ->]|[(_ & -> & _)|(_ & i & _ & _ & _ & m & -> & _)]];
      [done | done |]. simpl.
    rewrite dict_get_set. destruct (Z.eqb_spec (next_id s) h); [congruence|done].
  - destruct (free_cases s h' HI) as [[_ ->]|(b & m & _ & -> & _)]; [done|]. simpl.
    rewrite dict_get_del by apply (inv_keys s HI). by destruct (h' =? h).
  - destruct (defragment_cases s HI) as (m & -> & _). simpl.
    apply dict_get_None. rewrite relocate_keys, sorted_by_start_perm.
    by apply dict_get_None.
  - destruct (write_cases_Inv s h' o d HI)
      as [(e' & -> & _)|(b & cells & Hb & _ & _ & _ & ->)]; [done|]. simpl.
    rewrite dict_get_set. destruct (Z.eqb_spec h' h); [congruence|done].
  - pose proof (read_state s h' o n) as Hs. destruct (read s h' o n) as [s' r].
    simpl in *. by subst s'.
Qed.

Lemma run_all_Inv (cs : list call) : ∀ s, Inv s → Inv (run_all cs s).
Proof.
  induction cs as [|c cs IH]; intros s HI; simpl; [done|].
  apply IH. destruct c as [sz|h| |h o d|h o n]; simpl.
  - pose proof (Inv_alloc s sz HI). by destruct (alloc _ _).
  - pose proof (Inv_free s h HI). by destruct (free _ _).
  - pose proof (Inv_defragment s HI). by destruct (defragment _).
  - pose proof (Inv_write s h o d HI). by destruct (write _ _ _ _).
  - pose proof (Inv_read s h o n HI). by destruct (read _ _ _ _).
Qed.

Lemma stale_handle_stays_out (cs : list call) : ∀ s h,
  Inv s → h < next_id s → dict_get (allocations s) h = None →
  h < next_id (run_all cs s) ∧ dict_get (allocations (run_all cs s)) h = None.
Proof.
  induction cs as [|c cs IH]; intros s h HI Hlt Hh; simpl; [done|].
  apply IH.
  - apply (run_all_Inv [c] s HI).
  - pose proof (next_id_mono s c). lia.
  - apply step_keys; [done | done | lia].
Qed.

(** C7. The counter starts at 1; a call changes it only when it is a
    successful [alloc], which adds exactly one.  Hence, once a handle has
    been freed, no later state has it in the table and no later [alloc]
    returns it. *)
Theorem handles_never_recycled :
  (∀ n s, init n = Ok s → next_id s = 1) ∧
  (∀ s c, next_id (fst (run c s)) =
            match c, snd (run c s) with
            | Alloc _, Ok _ => next_id s + 1
            | _, _ => next_id s
            end) ∧
  (∀ s h r cs, reachable s → snd (free s h) = Ok r →
     let s' := run_all cs (fst (free s h)) in
     dict_get (allocations s') h = None ∧
     ∀ sz, snd (alloc s' sz) ≠ Ok h).
Proof.
  split; [|split].
  - intros n s. destruct (init_cases n) as [[_ ->]|[_ ->]]; [done|]. by intros [= <-].
  - apply next_id_step.
  - intros s h r cs Hr Hfree. apply reachable_Inv in Hr as HI.
    pose proof (Inv_free s h HI) as HI'.
    destruct (free_cases s h HI) as [[_ Hf]|(b & m & Hb & Hf & _)];
      rewrite Hf in *; [done|]. simpl in *.
    destruct (stale_handle_stays_out cs _ h HI') as [Hlt Hnone]; simpl.
    + pose proof (inv_ids s HI h b Hb). lia.
    + rewrite dict_get_del by apply (inv_keys s HI). by rewrite Z.eqb_refl.
    + split; [done|]. intros sz.
      destruct (alloc_cases (run_all cs (MemoryManager.mk (size s) m
                  (dict_del (allocations s) h) (next_id s))) sz)
        as [[_ ->]|[(_ & -> & _)|(_ & i & _ & _ & _ & m' & -> & _)]];
        [done | done |]. simpl. intros [= Heq]. lia.
Qed.

(** ** Write then read *)

Lemma join_cells (d : string) :
  join (cell_of <$> String.list_ascii_of_string d) = d.
Proof.
  unfold join. induction d as [|c d IH]; [done|].
  simpl in *. destruct d as [|c' d]; [done|].
  simpl in *. by rewrite IH.
Qed.

(** C4, as the code has it.  In a reachable state, for a live handle, an
    offset inside the block and non-empty data that fits the block from
    that offset on, [write(h, o, d)] succeeds and a following
    [read(h, o, len(d))] returns [d]. *)
Theorem write_read_roundtrip (s : MemoryManager.t) (h o : Z) (d : string)
    (b : MemoryBlock.t) :
  reachable s →
  dict_get (allocations s) h = Some b →
  0 ≤ o < MemoryBlock.size b →
  Z.of_nat (String.length d) ≤ MemoryBlock.size b - o →
  d ≠ EmptyString →
  ∃ s', write s h o d = (s', Ok tt) ∧
        read s' h o (Z.of_nat (String.length d)) = (s', Ok d).
Proof.
  intros Hr Hb Ho Hd Hne. apply reachable_Inv in Hr as HI.
  pose proof (Inv_write s h o d HI) as HI'.
  destruct (write_cases_Inv s h o d HI)
    as [(e & _ & [[_ Hn]|(b' & Hb' & [[_ Ho']|(_ & _ & Hd')])])|(b' & cells & Hb' & _ & _ & Hc & Hw)];
    [congruence | | |]; rewrite Hb in Hb'; injection Hb' as <-; [lia | lia |].
  rewrite Hw in *. simpl in HI'. eexists. split; [done|].
  set (s' := with_allocations s _) in *.
  assert (dict_get (allocations s') h = Some (MemoryBlock.with_data b cells)) as Hb'.
  { unfold s'. simpl. by rewrite dict_get_set, Z.eqb_refl. }
  destruct (inv_block s' HI' h _ Hb') as (_ & Hst & Hend & Hlen).
  simpl in Hst, Hend, Hlen.
  pose proof (inv_length s' HI') as HN. simpl in HN.
  assert (0 < Z.of_nat (String.length d)) by (destruct d; [done | simpl; lia]).
  pose proof (read_cases s' h o (Z.of_nat (String.length d))) as Hread.
  cbv zeta in Hread. rewrite Hb' in Hread. simpl in Hread. revert Hread.
  ztest. intros ->. do 2 f_equal.
  rewrite py_slice_inside by lia.
  destruct (write_chars_None_spec _ _ _ o (proj1 Ho) Hc) as (_ & _ & Htake).
  rewrite length_list_ascii_of_string in Htake.
  replace (Z.to_nat (o + Z.of_nat (String.length d) - o)) with (String.length d) by lia.
  rewrite Htake. apply join_cells.
Qed.

(** ** Compaction *)

(** C2. In a reachable state [defragment] succeeds.  With the live blocks
    listed by ascending start offset, the new table lists the same handles
    in that order; each block starts where the sizes of the blocks before
    it add up to and keeps its size and payload; the counter is unchanged;
    and the occupancy array is marked up to the sum [cursor] of all sizes
    and free from [cursor] to the end of the region. *)
Theorem defragment_compacts (s : MemoryManager.t) :
  reachable s →
  let items := sorted_by_start (allocations s) in
  let cursor := total_size items in
  items ≡ₚ allocations s ∧
  StronglySorted by_start items ∧
  ∃ s', defragment s = (s', Ok tt) ∧
        size s' = size s ∧
        next_id s' = next_id s ∧
        length (allocations s') = length items ∧
        (∀ (k : nat) h b, items !! k = Some (h, b) →
           allocations s' !! k =
             Some (h, MemoryBlock.mk (total_size (take k items))
                        (MemoryBlock.size b) (MemoryBlock.data b))) ∧
        (∀ h b, dict_get (allocations s) h = Some b →
           ∃ b', dict_get (allocations s') h = Some b' ∧
                 MemoryBlock.size b' = MemoryBlock.size b ∧
                 MemoryBlock.data b' = MemoryBlock.data b) ∧
        0 ≤ cursor ≤ size s ∧
        length (memory s') = length (memory s) ∧
        ∀ j : Z, 0 ≤ j < size s →
          memory s' !! Z.to_nat j = Some (if j <? cursor then "X" else "-").
Proof.
  intros Hr items cursor. apply reachable_Inv in Hr as HI.
  split; [apply sorted_by_start_perm|]. split; [apply sorted_by_start_sorted|].
  destruct (defragment_cases s HI) as (m & Hd & Hlen & Hm). fold items in Hd, Hm.
  pose proof (inv_length s HI) as HN.
  eexists. split; [exact Hd|]. simpl. repeat split.
  - rewrite <- (length_fmap fst), relocate_keys. apply length_fmap.
  - intros k h b Hk. by rewrite (relocate_lookup items 0 k h b Hk).
  - intros h b Hb. apply sorted_items_get in Hb; [|done]. fold items in Hb.
    destruct (relocate_elem_of items 0 h b Hb) as [a Ha].
    exists (MemoryBlock.mk a (MemoryBlock.size b) (MemoryBlock.data b)).
    split; [|done]. apply elem_of_dict_get; [|exact Ha].
    rewrite relocate_keys. by apply sorted_items_NoDup.
  - apply total_size_nonneg. by apply sorted_items_sizes.
  - by apply sorted_items_fit.
  - done.
  - intros j Hj. rewrite Hm by lia. by rewrite Z2Nat.id by lia.
Qed.

(** ** Concrete runs *)

Lemma reachable_run_all (cs : list call) : ∀ s, reachable s → reachable (run_all cs s).
Proof.
  induction cs as [|c cs IH]; intros s Hs; simpl; [done|].
  apply IH. by apply reachable_step.
Qed.

Lemma reachable_mm5 : reachable mm5.
Proof. by apply (reachable_init 5). Qed.

Lemma reachable_state_alloc3 : reachable state_alloc3.
Proof. apply reachable_run_all, reachable_mm5. Qed.

Lemma reachable_state_abc : reachable state_abc.
Proof. apply reachable_run_all, reachable_mm5. Qed.

Lemma reachable_state_fragmented : reachable state_fragmented.
Proof. apply reachable_run_all, reachable_mm5. Qed.

(** C4, as stated, fails for empty data: the write of the empty string at
    offset 0 of block 1 is in bounds and succeeds, and the read of length 0
    that follows raises the length error instead of returning the empty
    string. *)
Lemma write_read_empty_counterexample :
  reachable state_alloc3 ∧
  (∃ b, dict_get (allocations state_alloc3) 1 = Some b ∧
        0 ≤ 0 < MemoryBlock.size b ∧
        Z.of_nat (String.length EmptyString) ≤ MemoryBlock.size b - 0) ∧
  write state_alloc3 1 0 EmptyString = (state_alloc3, Ok tt) ∧
  snd (read state_alloc3 1 0 (Z.of_nat (String.length EmptyString))) = Err LengthNotPositive ∧
  snd (read state_alloc3 1 0 (Z.of_nat (String.length EmptyString))) ≠ Ok EmptyString.
Proof.
  split; [apply reachable_state_alloc3|].
  split; [eexists; split; [reflexivity|]; simpl; lia|].
  split; [reflexivity|]. split; [reflexivity|]. discriminate.
Qed.

(** C5, as stated, fails for a known handle with a non-positive length
    and a negative offset: the offset is tested first and the call raises
    the negative-offset [IndexError], an out-of-bounds error. *)
Lemma read_order_counterexample :
  reachable state_alloc3 ∧
  dict_contains (allocations state_alloc3) 1 = true ∧
  0 ≤ 0 ∧ -1 < 0 ∧
  snd (read state_alloc3 1 (-1) 0) = Err NegativeOffset ∧
  kind_of NegativeOffset = OutOfBounds ∧
  ¬ raises (snd (read state_alloc3 1 (-1) 0)) InvalidArgument.
Proof.
  split; [apply reachable_state_alloc3|].
  repeat split; try reflexivity; try lia.
  intros (e & He & Hk). vm_compute in He. injection He as <-. discriminate.
Qed.

(** ** The theorems on the concrete runs *)

Lemma alloc_first_fit_witness :
  (6 < 1 ∨ Z.of_nat (length (memory state_alloc1)) < 6) ∧
  alloc state_alloc1 6 = (state_alloc1, Err InvalidAllocSize) ∧
  1 ≤ 2 ≤ Z.of_nat (length (memory state_alloc1)) ∧
  free_run (memory state_alloc1) 1 2 ∧
  (∀ i', 0 ≤ i' < 1 → ¬ free_run (memory state_alloc1) i' 2) ∧
  allocated_at state_alloc1 2 1 (alloc state_alloc1 2) ∧
  (∀ i, 0 ≤ i ≤ Z.of_nat (length (memory state_fragmented)) - 2 →
        ¬ free_run (memory state_fragmented) i 2) ∧
  alloc state_fragmented 2 = (state_fragmented, Err InsufficientMemory).
Proof.
  assert (6 < 1 ∨ Z.of_nat (length (memory state_alloc1)) < 6) as Hbad
    by (right; vm_compute; reflexivity).
  assert (1 ≤ 2 ≤ Z.of_nat (length (memory state_alloc1))) as Hsz
    by (evaluate).
  assert (free_run (memory state_alloc1) 1 2) as Hfree.
  { intros j Hj. assert (j = 1 ∨ j = 2) as [->| ->] by lia; reflexivity. }
  assert (∀ i', 0 ≤ i' < 1 → ¬ free_run (memory state_alloc1) i' 2) as Hlow.
  { intros i' Hi' Hf. assert (i' = 0) as -> by lia.
    pose proof (Hf 0 ltac:(lia)) as H0. vm_compute in H0. discriminate H0. }
  assert (∀ i, 0 ≤ i ≤ Z.of_nat (length (memory state_fragmented)) - 2 →
               ¬ free_run (memory state_fragmented) i 2) as Hnone.
  { intros i Hi Hf. change (0 ≤ i ≤ 3) in Hi.
    assert (i = 0 ∨ i = 1 ∨ i = 2 ∨ i = 3) as [->|[->|[->| ->]]] by lia.
    - pose proof (Hf 0 ltac:(lia)) as H0. vm_compute in H0. discriminate H0.
    - pose proof (Hf 2 ltac:(lia)) as H0. vm_compute in H0. discriminate H0.
    - pose proof (Hf 2 ltac:(lia)) as H0. vm_compute in H0. discriminate H0.
    - pose proof (Hf 4 ltac:(lia)) as H0. vm_compute in H0. discriminate H0. }
  pose proof (alloc_first_fit state_alloc1 6) as [H6 _].
  pose proof (alloc_first_fit state_alloc1 2) as [_ H2].
  pose proof (alloc_first_fit state_fragmented 2) as [_ Hf2].
  assert (1 ≤ 2 ≤ Z.of_nat (length (memory state_fragmented))) as Hsz'
    by (evaluate).
  split; [exact Hbad|]. split; [exact (proj1 (H6 Hbad))|].
  split; [exact Hsz|]. split; [exact Hfree|]. split; [exact Hlow|].
  split; [|split; [exact Hnone|]].
  - apply (proj1 (H2 Hsz) 1); [evaluate | exact Hfree | exact Hlow].
  - exact (proj1 (proj2 (Hf2 Hsz') Hnone)).
Defined.

Lemma defragment_compacts_witness :
  reachable state_fragmented ∧
  ∃ s', defragment state_fragmented = (s', Ok tt) ∧
        allocations s' !! 1%nat = Some (3, MemoryBlock.mk 1 1 [EmptyString]) ∧
        memory s' !! 2%nat = Some "X" ∧
        memory s' !! 3%nat = Some "-".
Proof.
  split; [apply reachable_state_fragmented|].
  destruct (defragment_compacts state_fragmented reachable_state_fragmented)
    as (_ & _ & s' & Hd & _ & _ & _ & Hlk & _ & _ & _ & Hm).
  exists s'. split; [exact Hd|]. split; [|split].
  - exact (Hlk 1%nat 3 (MemoryBlock.mk 2 1 [EmptyString]) eq_refl).
  - apply (Hm 2). evaluate.
  - apply (Hm 3). evaluate.
Defined.

Lemma blocks_disjoint_in_region_witness :
  reachable state_fragmented ∧
  (∀ j, ¬ (in_block (MemoryBlock.init 0 1) j ∧ in_block (MemoryBlock.init 2 1) j)) ∧
  (∀ j, in_block (MemoryBlock.init 4 1) j → 0 ≤ j < size state_fragmented).
Proof.
  split; [apply reachable_state_fragmented|].
  destruct (blocks_disjoint_in_region state_fragmented reachable_state_fragmented)
    as (Hdis & Hin & _).
  split.
  - apply (Hdis 1 3); [lia | reflexivity | reflexivity].
  - apply (Hin 5). reflexivity.
Defined.

Lemma write_read_roundtrip_witness :
  reachable state_alloc3 ∧
  dict_get (allocations state_alloc3) 1 = Some (MemoryBlock.init 0 3) ∧
  ∃ s', write state_alloc3 1 0 "abc" = (s', Ok tt) ∧
        read s' 1 0 3 = (s', Ok "abc").
Proof.
  split; [apply reachable_state_alloc3|]. split; [reflexivity|].
  apply (write_read_roundtrip state_alloc3 1 0 "abc" (MemoryBlock.init 0 3)).
  - apply reachable_state_alloc3.
  - reflexivity.
  - simpl. lia.
  - simpl. lia.
  - discriminate.
Defined.

Lemma read_check_order_witness :
  raises (snd (read state_abc 9 0 3)) UnknownHandle ∧
  raises (snd (read state_abc 1 (-1) 0)) OutOfBounds ∧
  raises (snd (read state_abc 1 0 0)) InvalidArgument ∧
  raises (snd (read state_abc 1 0 5)) OutOfBounds ∧
  snd (read state_abc 1 0 3) = Ok "abc".
Proof.
  pose (b := MemoryBlock.mk 0 3 ["a"; "b"; "c"]).
  assert (dict_get (allocations state_abc) 1 = Some b) as Hb by reflexivity.
  split; [|split; [|split; [|split]]].
  - apply (proj1 (read_check_order state_abc 9 0 3)). reflexivity.
  - destruct (proj2 (read_check_order state_abc 1 (-1) 0) b Hb) as (H & _).
    apply H. lia.
  - destruct (proj2 (read_check_order state_abc 1 0 0) b Hb) as (_ & H & _).
    apply H; lia.
  - destruct (proj2 (read_check_order state_abc 1 0 5) b Hb) as (_ & _ & H & _).
    apply H; [lia | lia |]. right. simpl. lia.
  - destruct (proj2 (read_check_order state_abc 1 0 3) b Hb) as (_ & _ & _ & H).
    apply H; [lia | lia | evaluate | simpl; lia].
Defined.

Lemma failed_call_is_atomic_witness :
  reachable state_fragmented ∧
  snd (run (Alloc 2) state_fragmented) = Err InsufficientMemory ∧
  fst (run (Alloc 2) state_fragmented) = state_fragmented.
Proof.
  split; [apply reachable_state_fragmented|]. split; [reflexivity|].
  apply (failed_call_is_atomic state_fragmented (Alloc 2) InsufficientMemory).
  - apply reachable_state_fragmented.
  - reflexivity.
Defined.

Lemma handles_never_recycled_witness :
  reachable state_fragmented ∧
  snd (free state_fragmented 1) = Ok true ∧
  dict_get (allocations (run_all [Alloc 1] (fst (free state_fragmented 1)))) 1 = None ∧
  ∀ sz, snd (alloc (run_all [Alloc 1] (fst (free state_fragmented 1))) sz) ≠ Ok 1.
Proof.
  split; [apply reachable_state_fragmented|]. split; [reflexivity|].
  destruct handles_never_recycled as (_ & _ & H).
  apply (H state_fragmented 1 true [Alloc 1]).
  - apply reachable_state_fragmented.
  - reflexivity.
Defined.

Lemma write_frame_witness :
  write state_alloc3 1 0 "abc" = (state_abc, Ok tt) ∧
  memory state_abc = memory state_alloc3 ∧
  next_id state_abc = next_id state_alloc3.
Proof.
  assert (write state_alloc3 1 0 "abc" = (state_abc, Ok tt)) as Hw by reflexivity.
  split; [exact Hw|].
  destruct (write_frame state_alloc3 state_abc 1 0 "abc" Hw) as (Hm & Hn & _).
  split; [exact Hm | exact Hn].
Defined.

Lemma occupancy_in_sync_witness :
  reachable state_fragmented ∧
  0 ≤ 1 < size state_fragmented ∧
  ¬ covered (allocations state_fragmented) 1.
Proof.
  split; [apply reachable_state_fragmented|]. split; [evaluate|].
  destruct (occupancy_in_sync state_fragmented reachable_state_fragmented) as [_ H].
  destruct (H 1) as [[_ Hc] _]; [evaluate|].
  intros Hcov. apply Hc in Hcov. vm_compute in Hcov. discriminate Hcov.
Defined.

Lemma payload_length_is_size_witness :
  reachable state_abc ∧
  ∀ h b, dict_get (allocations state_abc) h = Some b →
         Z.of_nat (length (MemoryBlock.data b)) = MemoryBlock.size b.
Proof.
  split; [apply reachable_state_abc|].
  apply (payload_length_is_size state_abc reachable_state_abc).
Defined.

(** * Further properties of the code *)

(** ** Rendering the region *)

Lemma render_block_inside (b : MemoryBlock.t) (n : nat) : ∀ (cells : list string) (a : Z),
  0 ≤ a → a + Z.of_nat n ≤ Z.of_nat (length (MemoryBlock.data b)) →
  0 ≤ MemoryBlock.start b →
  MemoryBlock.start b + a + Z.of_nat n ≤ Z.of_nat (length cells) →
  ∃ cells', render_block cells b (range a (a + Z.of_nat n)) = Ok cells' ∧
            length cells' = length cells ∧
            ∀ k : nat, cells' !! k =
              if (MemoryBlock.start b + a <=? Z.of_nat k) &&
                 (Z.of_nat k <? MemoryBlock.start b + a + Z.of_nat n)
              then shown <$> MemoryBlock.data b !! Z.to_nat (Z.of_nat k - MemoryBlock.start b)
              else cells !! k.
Proof.
  induction n as [|n IH]; intros cells a Ha Hdata Hst Hcells.
  - rewrite range_nil by lia. exists cells. repeat split.
    intros k. ztest; reflexivity.
  - rewrite range_cons by lia. cbn [render_block].
    rewrite py_getitem_inside by lia.
    destruct (lookup_lt_is_Some_2 (MemoryBlock.data b) (Z.to_nat a)) as [c Hc]; [lia|].
    rewrite Hc. rewrite py_setitem_inside by lia.
    destruct (IH (<[Z.to_nat (MemoryBlock.start b + a):=shown c]> cells) (a + 1))
      as (cells' & Hr & Hlen & Hlk); [lia | lia | lia | rewrite length_insert; lia |].
    replace (a + 1 + Z.of_nat n) with (a + Z.of_nat (S n)) in Hr by lia.
    exists cells'. split; [exact Hr|]. split; [by rewrite Hlen, length_insert|].
    intros k. rewrite Hlk.
    destruct (decide (k = Z.to_nat (MemoryBlock.start b + a))) as [->|Hne].
    + rewrite list_lookup_insert_eq by lia. ztest.
      replace (Z.to_nat (Z.of_nat (Z.to_nat (MemoryBlock.start b + a)) - MemoryBlock.start b))
        with (Z.to_nat a) by lia.
      by rewrite Hc.
    + rewrite list_lookup_insert_ne by lia. ztest; reflexivity.
Qed.

(** The rendering loops never raise on blocks that lie in the list, have a
    payload of their size and do not overlap; each block writes its own
    cells, whatever the order of the table. *)
Lemma render_blocks_spec (d : dict MemoryBlock.t) : ∀ (cells : list string),
  (∀ h b, (h, b) ∈ d →
     0 ≤ MemoryBlock.size b ∧ 0 ≤ MemoryBlock.start b ∧
     MemoryBlock.start b + MemoryBlock.size b ≤ Z.of_nat (length cells) ∧
     Z.of_nat (length (MemoryBlock.data b)) = MemoryBlock.size b) →
  NoDup d.*1 →
  (∀ x y, x ∈ d → y ∈ d → fst x ≠ fst y → disjoint_blocks (snd x) (snd y)) →
  ∃ cells', render_blocks cells (snd <$> d) = Ok cells' ∧
            length cells' = length cells ∧
            ∀ k : nat,
              (∀ h b, (h, b) ∈ d → in_block b (Z.of_nat k) →
                 cells' !! k =
                   shown <$> MemoryBlock.data b !! Z.to_nat (Z.of_nat k - MemoryBlock.start b)) ∧
              ((∀ h b, (h, b) ∈ d → ¬ in_block b (Z.of_nat k)) →
                 cells' !! k = cells !! k).
Proof.
  induction d as [|[h0 b0] d IH]; intros cells Hb Hnd Hdis.
  - exists cells. simpl. split; [done|]. split; [done|].
    intros k. split; [|done]. intros h b Hin. by apply elem_of_nil in Hin.
  - cbn [fmap list_fmap snd render_blocks].
    destruct (Hb h0 b0 (list_elem_of_here _ _)) as (Hsz & Hst & Hend & Hlen).
    destruct (render_block_inside b0 (Z.to_nat (MemoryBlock.size b0)) cells 0)
      as (cells1 & Hr1 & Hlen1 & Hlk1); [lia | lia | lia | lia |].
    replace (0 + Z.of_nat (Z.to_nat (MemoryBlock.size b0)))
      with (MemoryBlock.size b0) in Hr1 by lia.
    rewrite Hr1.
    simpl in Hnd. apply NoDup_cons in Hnd as [Hh0 Hnd].
    destruct (IH cells1) as (cells' & Hr & Hlen' & Hlk).
    { intros h b Hin. rewrite Hlen1. apply (Hb h b). by apply list_elem_of_further. }
    { done. }
    { intros x y Hx Hy. apply Hdis; by apply list_elem_of_further. }
    exists cells'. split; [exact Hr|]. split; [congruence|].
    assert (∀ h b, (h, b) ∈ d → disjoint_blocks b0 b) as Hd0.
    { intros h b Hin.
      apply (Hdis (h0, b0) (h, b)); [apply list_elem_of_here | by apply list_elem_of_further |].
      simpl. intros ->. apply Hh0. apply (list_elem_of_fmap_2 fst) in Hin. exact Hin. }
    intros k. destruct (Hlk k) as [Hin_d Hout_d]. split.
    + intros h b Hin Hk. apply elem_of_cons in Hin as [[= -> ->]|Hin].
      * rewrite Hout_d.
        -- rewrite Hlk1. unfold in_block in Hk. revert Hk. ztest; done.
        -- intros h b Hin Hk'. specialize (Hd0 h b Hin).
           unfold disjoint_blocks, in_block in *. lia.
      * by apply (Hin_d h b).
    + intros Hout. rewrite Hout_d.
      * rewrite Hlk1.
        specialize (Hout h0 b0 (list_elem_of_here _ _)). unfold in_block in Hout.
        revert Hout. ztest; done.
      * intros h b Hin. apply (Hout h b). by apply list_elem_of_further.
Qed.

Lemma str_cells (s : MemoryManager.t) :
  Inv s →
  ∃ cells, __str__ s = Ok (join cells) ∧
           Z.of_nat (length cells) = size s ∧
           ∀ j : Z, 0 ≤ j < size s →
             (¬ covered (allocations s) j → cells !! Z.to_nat j = Some "-") ∧
             (∀ h b, dict_get (allocations s) h = Some b → in_block b j →
                ∃ c, MemoryBlock.data b !! Z.to_nat (j - MemoryBlock.start b) = Some c ∧
                     cells !! Z.to_nat j = Some (shown c)).
Proof.
  intros HI.
  pose proof (inv_length s HI) as HN.
  destruct (render_blocks_spec (allocations s) (replicate (length (memory s)) "-"))
    as (cells & Hrender & Hlen & Hlk).
  - intros h b Hin. rewrite length_replicate.
    apply elem_of_dict_get in Hin; [|apply (inv_keys s HI)].
    destruct (inv_block s HI h b Hin) as (? & ? & ? & ?). repeat split; lia.
  - apply (inv_keys s HI).
  - intros [h1 b1] [h2 b2] H1 H2 Hne. simpl in *.
    apply elem_of_dict_get in H1; [|apply (inv_keys s HI)].
    apply elem_of_dict_get in H2; [|apply (inv_keys s HI)].
    by apply (inv_disjoint s HI h1 h2).
  - exists cells. unfold __str__. rewrite Hrender. split; [done|].
    rewrite length_replicate in Hlen. split; [lia|].
    intros j Hj. destruct (Hlk (Z.to_nat j)) as [Hin Hout].
    rewrite Z2Nat.id in Hin, Hout by lia. split.
    + intros Hncov. rewrite Hout.
      * apply lookup_replicate_2. lia.
      * intros h b Hb Hjb. apply Hncov. exists h, b.
        split; [|exact Hjb]. apply elem_of_dict_get; [apply (inv_keys s HI)|done].
    + intros h b Hb Hjb.
      destruct (inv_block s HI h b Hb) as (_ & _ & _ & Hl).
      destruct (lookup_lt_is_Some_2 (MemoryBlock.data b)
                  (Z.to_nat (j - MemoryBlock.start b))) as [c Hc].
      { unfold in_block in Hjb. lia. }
      exists c. split; [done|].
      rewrite (Hin h b); [by rewrite Hc | by apply dict_get_elem_of | done].
Qed.

(** In every reachable state [str(manager)] does not raise and joins one
    cell per position of the region: ['-'] for a position outside every
    live block and, for a position inside a block, the payload cell at
    that offset of the block, or ['X'] when that cell is still empty. *)
Theorem str_shows_blocks (s : MemoryManager.t) :
  reachable s →
  ∃ cells, __str__ s = Ok (join cells) ∧
           Z.of_nat (length cells) = size s ∧
           ∀ j : Z, 0 ≤ j < size s →
             (¬ covered (allocations s) j → cells !! Z.to_nat j = Some "-") ∧
             (∀ h b, dict_get (allocations s) h = Some b → in_block b j →
                ∃ c, MemoryBlock.data b !! Z.to_nat (j - MemoryBlock.start b) = Some c ∧
                     cells !! Z.to_nat j = Some (shown c)).
Proof. intros Hr. by apply str_cells, reachable_Inv. Qed.

(** ** One character per cell *)

Lemma string_length_append (a b : string) :
  String.length (String.append a b) = (String.length a + String.length b)%nat.
Proof. induction a as [|c a IH]; simpl; [done | by rewrite IH]. Qed.

Lemma join_length (l : list string) :
  String.length (join l) = sum_list_with String.length l.
Proof.
  unfold join. induction l as [|x l IH]; [done|].
  cbn [String.concat sum_list_with]. destruct l as [|y l].
  - simpl. lia.
  - rewrite !string_length_append, IH. simpl. lia.
Qed.

Lemma sum_lengths_le (l : list string) :
  (∀ c, c ∈ l → (String.length c ≤ 1)%nat) →
  (sum_list_with String.length l ≤ length l)%nat.
Proof.
  induction l as [|x l IH]; intros Hl; simpl; [lia|].
  pose proof (Hl x (list_elem_of_here _ _)).
  assert (sum_list_with String.length l ≤ length l)%nat; [|lia].
  apply IH. intros c Hc. apply Hl. by apply list_elem_of_further.
Qed.

Lemma sum_lengths_eq (l : list string) :
  (∀ c, c ∈ l → String.length c = 1%nat) →
  sum_list_with String.length l = length l.
Proof.
  induction l as [|x l IH]; intros Hl; simpl; [lia|].
  rewrite (Hl x (list_elem_of_here _ _)), IH; [lia|].
  intros c Hc. apply Hl. by apply list_elem_of_further.
Qed.

Lemma shown_length (c : string) :
  (String.length c ≤ 1)%nat → String.length (shown c) = 1%nat.
Proof. destruct c as [|a c]; simpl; [done|]. lia. Qed.

Lemma short_payloads_step (s : MemoryManager.t) (c : call) :
  Inv s → short_payloads s → short_payloads (fst (run c s)).
Proof.
  intros HI Hs. unfold short_payloads in *.
  destruct c as [sz|h| |h o d|h o n]; simpl.
  - destruct (alloc_cases s sz) as [[_ ->]|[(_ & -> & _)|(_ & i & _ & _ & _ & m & -> & _)]];
      [done | done |]. simpl.
    intros h b c. rewrite dict_get_set.
    destruct (Z.eqb_spec (next_id s) h) as [_|_]; [|apply Hs].
    intros [= <-] Hc. simpl in Hc. apply elem_of_replicate_inv in Hc as ->. simpl. lia.
  - destruct (free_cases s h HI) as [[_ ->]|(b & m & _ & -> & _)]; [done|]. simpl.
    intros h' b' c. rewrite dict_get_del by apply (inv_keys s HI).
    destruct (h =? h'); [done | apply Hs].
  - destruct (defragment_cases s HI) as (m & -> & _). simpl.
    intros h b' c Hb' Hc. apply dict_get_elem_of in Hb'.
    apply elem_of_relocate in Hb' as (b & Hb & _ & Hd & _);
      [|by apply sorted_items_sizes].
    apply sorted_items_get in Hb; [|done]. rewrite Hd in Hc. by apply (Hs h b).
  - destruct (write_cases_Inv s h o d HI)
      as [(e' & -> & _)|(b & cells & Hb & Ho & Hd & Hc & ->)]; [done|]. simpl.
    intros h' b' c. rewrite dict_get_set.
    destruct (Z.eqb_spec h h') as [_|_]; [|apply Hs].
    intros [= <-] Hin. simpl in Hin.
    destruct (inv_block s HI h b Hb) as (_ & _ & _ & Hlen).
    rewrite write_chars_inside in Hc
      by (rewrite ?length_list_ascii_of_string; lia).
    injection Hc as <-.
    apply elem_of_app in Hin as [Hin|Hin]; [|apply elem_of_app in Hin as [Hin|Hin]].
    + apply (Hs h b c Hb). eapply elem_of_sublist; [exact Hin | apply sublist_take].
    + apply list_elem_of_fmap in Hin as (a & -> & _). simpl. lia.
    + apply (Hs h b c Hb). eapply elem_of_sublist; [exact Hin | apply sublist_drop].
  - pose proof (read_state s h o n) as Hst. destruct (read s h o n) as [s' r].
    simpl in *. by subst s'.
Qed.

Lemma reachable_short_payloads (s : MemoryManager.t) :
  reachable s → short_payloads s.
Proof.
  induction 1 as [n s Hinit|c s Hr IH].
  - destruct (init_cases n) as [[_ Hn]|[_ Hn]]; rewrite Hn in Hinit; [done|].
    injection Hinit as <-. intros h b c Hb. done.
  - apply short_payloads_step; [by apply reachable_Inv | done].
Qed.

(** In every reachable state [str(manager)] is a string of exactly [N]
    characters, one per position of the region. *)
Theorem str_has_region_length (s : MemoryManager.t) :
  reachable s →
  ∃ str, __str__ s = Ok str ∧ Z.of_nat (String.length str) = size s.
Proof.
  intros Hr. pose proof (reachable_short_payloads s Hr) as Hshort.
  apply reachable_Inv in Hr as HI.
  destruct (str_cells s HI) as (cells & Hstr & Hlen & Hcells).
  exists (join cells). split; [done|].
  rewrite join_length, sum_lengths_eq; [done|].
  intros c Hc. apply list_elem_of_lookup in Hc as [k Hk].
  pose proof (lookup_lt_Some _ _ _ Hk) as Hklt.
  destruct (Hcells (Z.of_nat k)) as [Hfree Hocc]; [lia|].
  rewrite Nat2Z.id in Hfree, Hocc.
  destruct (covered_dec (allocations s) (Z.of_nat k)) as [(h & b & Hb & Hj)|Hn].
  - destruct (Hocc h b Hb Hj) as (c0 & Hc0 & Hk'). rewrite Hk in Hk'.
    injection Hk' as ->. apply shown_length. apply (Hshort h b c0 Hb).
    by eapply list_elem_of_lookup_2.
  - rewrite (Hfree Hn) in Hk. by injection Hk as <-.
Qed.

(** In every reachable state a successful [read(h, o, n)] returns at most
    [n] characters: it joins [n] payload cells, each empty or one
    character. *)
Theorem read_returns_at_most_length (s s' : MemoryManager.t) (h o n : Z) (str : string) :
  reachable s →
  read s h o n = (s', Ok str) →
  Z.of_nat (String.length str) ≤ n.
Proof.
  intros Hr Hread. pose proof (reachable_short_payloads s Hr) as Hshort.
  apply reachable_Inv in Hr as HI.
  pose proof (read_cases s h o n) as Hc. cbv zeta in Hc.
  destruct (dict_get (allocations s) h) as [b|] eqn:Hb; [|congruence].
  revert Hc. ztest; intros Hc; rewrite Hc in Hread; try discriminate.
  injection Hread as _ <-.
  destruct (inv_block s HI h b Hb) as (_ & _ & _ & Hlen).
  rewrite py_slice_inside by lia. rewrite join_length.
  etrans; [apply inj_le, sum_lengths_le|].
  - intros c Hin. apply (Hshort h b c Hb).
    eapply elem_of_sublist; [exact Hin|].
    etrans; [apply sublist_take | apply sublist_drop].
  - rewrite length_take, length_drop. lia.
Qed.

(** ** Releasing a block *)

(** In every reachable state [free] of a live handle returns [True],
    removes that handle alone from the table, keeps the counter, and marks
    the cells of the block free, leaving every other cell as it was. *)
Theorem free_releases_block (s : MemoryManager.t) (h : Z) (b : MemoryBlock.t) :
  reachable s →
  dict_get (allocations s) h = Some b →
  ∃ s', free s h = (s', Ok true) ∧
        dict_get (allocations s') h = None ∧
        (∀ h', h' ≠ h → dict_get (allocations s') h' = dict_get (allocations s) h') ∧
        next_id s' = next_id s ∧
        size s' = size s ∧
        length (memory s') = length (memory s) ∧
        ∀ j : Z, 0 ≤ j →
          memory s' !! Z.to_nat j =
            if (MemoryBlock.start b <=? j) &&
               (j <? MemoryBlock.start b + MemoryBlock.size b)
            then Some "-" else memory s !! Z.to_nat j.
Proof.
  intros Hr Hb. apply reachable_Inv in Hr as HI.
  destruct (free_cases s h HI) as [[Hn _]|(b' & m & Hb' & -> & Hlen & Hm)];
    [congruence|].
  rewrite Hb in Hb'. injection Hb' as <-.
  eexists. split; [done|]. simpl. repeat split.
  - rewrite dict_get_del by apply (inv_keys s HI). by rewrite Z.eqb_refl.
  - intros h' Hne. rewrite dict_get_del by apply (inv_keys s HI).
    destruct (Z.eqb_spec h h'); [congruence|done].
  - done.
  - intros j Hj. rewrite Hm. by rewrite Z2Nat.id by lia.
Qed.

(** Once a handle has been freed in a reachable state, every later [free],
    [write] and [read] on it raises the unknown-block [ValueError] and
    changes nothing, whatever calls come in between. *)
Theorem freed_handle_is_unknown (s : MemoryManager.t) (h : Z) (r : bool)
    (cs : list call) :
  reachable s →
  snd (free s h) = Ok r →
  let s' := run_all cs (fst (free s h)) in
  free s' h = (s', Err (NoSuchBlock h)) ∧
  (∀ o d, write s' h o d = (s', Err (NoSuchBlock h))) ∧
  (∀ o n, read s' h o n = (s', Err (NoSuchBlock h))).
Proof.
  intros Hr Hfree. apply reachable_Inv in Hr as HI.
  pose proof (Inv_free s h HI) as HI'.
  destruct (free_cases s h HI) as [[_ Hf]|(b & m & Hb & Hf & _)];
    rewrite Hf in *; [done|]. simpl in *.
  destruct (stale_handle_stays_out cs _ h HI') as [_ Hnone]; simpl.
  - pose proof (inv_ids s HI h b Hb). lia.
  - rewrite dict_get_del by apply (inv_keys s HI). by rewrite Z.eqb_refl.
  - split; [|split].
    + unfold free, dict_contains. by rewrite Hnone.
    + intros o d. unfold write. by rewrite Hnone.
    + intros o n. pose proof (read_cases (run_all cs (MemoryManager.mk (size s) m
                    (dict_del (allocations s) h) (next_id s))) h o n) as Hread.
      cbv zeta in Hread. by rewrite Hnone in Hread.
Qed.

(** ** Allocating a block *)

Lemma dict_del_set_fresh {V} (d : dict V) (k : Z) (v : V) :
  k ∉ d.*1 → dict_del (dict_set d k v) k = d.
Proof.
  induction d as [|[k0 v0] d IH]; simpl; intros Hk.
  - by rewrite Z.eqb_refl.
  - apply not_elem_of_cons in Hk as [Hne Hk].
    destruct (Z.eqb_spec k0 k); [congruence|]. simpl.
    destruct (Z.eqb_spec k0 k); [congruence|]. by rewrite IH.
Qed.

(** In every reachable state a successful [alloc] returns the value of
    the counter, a handle that is not in the table; the table gains that
    handle at its end, with a block of the requested size inside the
    region and a blank payload, and keeps every other entry. *)
Theorem alloc_enters_fresh_block (s s' : MemoryManager.t) (sz h : Z) :
  reachable s →
  alloc s sz = (s', Ok h) →
  h = next_id s ∧
  dict_get (allocations s) h = None ∧
  (∃ i, 0 ≤ i ∧ i + sz ≤ size s ∧
        dict_get (allocations s') h =
          Some (MemoryBlock.mk i sz (replicate (Z.to_nat sz) EmptyString))) ∧
  (∀ h', h' ≠ h → dict_get (allocations s') h' = dict_get (allocations s) h') ∧
  (allocations s').*1 = (allocations s).*1 ++ [h].
Proof.
  intros Hr Ha. apply reachable_Inv in Hr as HI.
  pose proof (inv_length s HI) as HN.
  destruct (alloc_cases s sz)
    as [[_ He]|[(_ & He & _)|(Hsz & i & Hi & _ & _ & m & He & _)]];
    rewrite He in Ha; try discriminate.
  injection Ha as <- <-. simpl.
  assert (dict_get (allocations s) (next_id s) = None) as Hfresh.
  { destruct (dict_get (allocations s) (next_id s)) as [b|] eqn:Hb; [|done].
    pose proof (inv_ids s HI _ b Hb). lia. }
  split; [done|]. split; [done|]. split; [|split].
  - exists i. rewrite dict_get_set, Z.eqb_refl. repeat split; (done || lia).
  - intros h' Hne. rewrite dict_get_set.
    destruct (Z.eqb_spec (next_id s) h'); [congruence|done].
  - rewrite dict_set_fresh by (by apply dict_get_None). by rewrite fmap_app.
Qed.

(** In a reachable state, freeing the handle that [alloc] has just
    returned gives back the occupancy array and the table as they were
    before the allocation; only the counter has moved on. *)
Theorem alloc_then_free_restores (s s1 : MemoryManager.t) (sz h : Z) :
  reachable s →
  alloc s sz = (s1, Ok h) →
  free s1 h =
    (MemoryManager.mk (size s) (memory s) (allocations s) (next_id s + 1), Ok true).
Proof.
  intros Hr Ha. apply reachable_Inv in Hr as HI.
  pose proof (Inv_alloc s sz HI) as HI1. rewrite Ha in HI1. simpl in HI1.
  destruct (alloc_cases s sz)
    as [[_ He]|[(_ & He & _)|(Hsz & i & Hi & Hfree & _ & m & He & Hlen & Hm)]];
    rewrite He in Ha; try discriminate.
  injection Ha as <- <-.
  destruct (free_cases _ (next_id s) HI1) as [[Hn _]|(b & m' & Hb & -> & Hlen' & Hm')];
    simpl in *.
  { rewrite dict_get_set, Z.eqb_refl in Hn. done. }
  rewrite dict_get_set, Z.eqb_refl in Hb. injection Hb as <-. simpl in Hm'.
  f_equal. f_equal.
  - apply list_eq. intros k. rewrite Hm', Hm. ztest; try done.
    symmetry. rewrite <- (Nat2Z.id k). apply Hfree. lia.
  - apply dict_del_set_fresh, dict_get_None.
    destruct (dict_get (allocations s) (next_id s)) as [b|] eqn:Hb; [|done].
    pose proof (inv_ids s HI _ b Hb). lia.
Qed.

Lemma join_empty_cells (l : list string) :
  (∀ c, c ∈ l → c = EmptyString) → join l = EmptyString.
Proof.
  intros Hl. pose proof (join_length l) as Hlen.
  assert (sum_list_with String.length l = 0%nat) as H0.
  { clear Hlen. induction l as [|x l IH]; simpl; [done|].
    rewrite (Hl x (list_elem_of_here _ _)), IH; [done|].
    intros c Hc. apply Hl. by apply list_elem_of_further. }
  rewrite H0 in Hlen. by destruct (join l).
Qed.

(** A block that has just been allocated reads as the empty string: every
    read inside it succeeds and returns no character, whatever its
    length. *)
Theorem fresh_block_reads_empty (s s1 : MemoryManager.t) (sz h o n : Z) :
  alloc s sz = (s1, Ok h) →
  0 ≤ o → 0 < n → o + n ≤ sz →
  read s1 h o n = (s1, Ok EmptyString).
Proof.
  intros Ha Ho Hn Hon.
  destruct (alloc_cases s sz)
    as [[_ He]|[(_ & He & _)|(Hsz & i & Hi & _ & _ & m & He & Hlen & _)]];
    rewrite He in Ha; try discriminate.
  injection Ha as <- <-.
  pose proof (read_cases (MemoryManager.mk (size s) m
                (dict_set (allocations s) (next_id s) (MemoryBlock.init i sz))
                (next_id s + 1)) (next_id s) o n) as Hread.
  cbv zeta in Hread. simpl in Hread. rewrite dict_get_set, Z.eqb_refl in Hread.
  simpl in Hread. revert Hread. ztest. intros ->. do 2 f_equal.
  apply join_empty_cells. intros c Hc. unfold py_slice in Hc.
  apply (elem_of_replicate_inv c (Z.to_nat sz)).
  eapply elem_of_sublist; [exact Hc|].
  etrans; [apply sublist_take | apply sublist_drop].
Qed.

(** ** More on compaction *)

Lemma sorted_by_start_id (l : dict MemoryBlock.t) :
  StronglySorted by_start l → sorted_by_start l = l.
Proof.
  induction l as [|x l IH]; intros Hs; simpl; [done|].
  apply StronglySorted_cons in Hs as [Hx Hs]. rewrite IH by done.
  destruct l as [|y l]; simpl; [done|].
  apply Forall_cons in Hx as [Hxy _]. unfold by_start in Hxy.
  destruct (Z.leb_spec (MemoryBlock.start (snd x)) (MemoryBlock.start (snd y))); [done|lia].
Qed.

Lemma relocate_sorted (items : dict MemoryBlock.t) : ∀ c,
  (∀ kv, kv ∈ items → 0 ≤ MemoryBlock.size (snd kv)) →
  StronglySorted by_start (relocate c items).
Proof.
  induction items as [|[h b] items IH]; intros c Hsz; simpl; [constructor|].
  assert (∀ kv, kv ∈ items → 0 ≤ MemoryBlock.size (snd kv)) as Hsz'.
  { intros kv Hkv. apply Hsz. by apply list_elem_of_further. }
  pose proof (Hsz (h, b) (list_elem_of_here _ _)) as Hb. simpl in Hb.
  apply StronglySorted_cons. split; [|by apply IH].
  apply Forall_forall. intros [h' b'] Hin. unfold by_start. simpl.
  apply elem_of_relocate in Hin as (_ & _ & _ & _ & ? & _); [lia|done].
Qed.

Lemma relocate_relocate (items : dict MemoryBlock.t) : ∀ c c',
  relocate c (relocate c' items) = relocate c items.
Proof.
  induction items as [|[h b] items IH]; intros c c'; simpl; [done|].
  by rewrite IH.
Qed.

Lemma total_size_relocate (items : dict MemoryBlock.t) : ∀ c,
  total_size (relocate c items) = total_size items.
Proof.
  induction items as [|[h b] items IH]; intros c; simpl; [done|].
  fold (total_size (relocate (c + MemoryBlock.size b) items)).
  fold (total_size items). by rewrite IH.
Qed.

Lemma total_size_perm (l l' : dict MemoryBlock.t) :
  l ≡ₚ l' → total_size l = total_size l'.
Proof.
  induction 1 as [|x l l' _ IH|x y l|l l1 l' _ IH1 _ IH2]; simpl.
  - done.
  - fold (total_size l) (total_size l'). lia.
  - lia.
  - congruence.
Qed.

(** In every reachable state the sizes of the live blocks add up to at
    most the size of the region, and so does their number. *)
Theorem live_sizes_fit_region (s : MemoryManager.t) :
  reachable s →
  total_size (allocations s) ≤ size s ∧
  Z.of_nat (length (allocations s)) ≤ total_size (allocations s).
Proof.
  intros Hr. apply reachable_Inv in Hr as HI. split.
  - rewrite <- (total_size_perm _ _ (sorted_by_start_perm (allocations s))).
    by apply sorted_items_fit.
  - assert (∀ kv, kv ∈ allocations s → 1 ≤ MemoryBlock.size (snd kv)) as Hsz.
    { intros [h b] Hin. apply elem_of_dict_get in Hin; [|apply (inv_keys s HI)].
      by destruct (inv_block s HI h b Hin). }
    induction (allocations s) as [|x l IH]; simpl; [done|].
    fold (total_size l).
    pose proof (Hsz x (list_elem_of_here _ _)).
    assert (Z.of_nat (length l) ≤ total_size l); [|lia].
    apply IH. intros kv Hkv. apply Hsz. by apply list_elem_of_further.
Qed.

(** What the table holds for a handle after [defragment]: the same size
    and payload as before, or nothing when it held nothing. *)
Lemma defragment_lookup (s : MemoryManager.t) (h : Z) :
  Inv s →
  match dict_get (allocations s) h with
  | Some b =>
      ∃ a, dict_get (relocate 0 (sorted_by_start (allocations s))) h =
             Some (MemoryBlock.mk a (MemoryBlock.size b) (MemoryBlock.data b))
  | None => dict_get (relocate 0 (sorted_by_start (allocations s))) h = None
  end.
Proof.
  intros HI. destruct (dict_get (allocations s) h) as [b|] eqn:Hb.
  - apply sorted_items_get in Hb; [|done].
    destruct (relocate_elem_of _ 0 h b Hb) as [a Ha]. exists a.
    apply elem_of_dict_get; [|done].
    rewrite relocate_keys. by apply sorted_items_NoDup.
  - apply dict_get_None. rewrite relocate_keys, sorted_by_start_perm.
    by apply dict_get_None.
Qed.

(** In every reachable state [defragment] changes the outcome of no
    [read]: the same handle, offset and length give the same string or
    the same error before and after. *)
Theorem defragment_preserves_reads (s : MemoryManager.t) (h o n : Z) :
  reachable s →
  snd (read (fst (defragment s)) h o n) = snd (read s h o n).
Proof.
  intros Hr. apply reachable_Inv in Hr as HI.
  destruct (defragment_cases s HI) as (m & -> & Hlen & _). simpl.
  pose proof (read_cases s h o n) as H1. cbv zeta in H1.
  pose proof (read_cases (MemoryManager.mk (size s) m
                (relocate 0 (sorted_by_start (allocations s))) (next_id s)) h o n) as H2.
  cbv zeta in H2. simpl in H2. rewrite Hlen in H2.
  pose proof (defragment_lookup s h HI) as Hlk.
  destruct (dict_get (allocations s) h) as [b|].
  - destruct Hlk as [a Ha]. rewrite Ha in H2. simpl in H2.
    revert H1 H2. ztest; intros -> ->; done.
  - rewrite Hlk in H2. by rewrite H1, H2.
Qed.

(** In every reachable state a second [defragment] right after the first
    changes nothing. *)
Theorem defragment_twice (s : MemoryManager.t) :
  reachable s →
  defragment (fst (defragment s)) = (fst (defragment s), Ok tt).
Proof.
  intros Hr. apply reachable_Inv in Hr as HI.
  pose proof (Inv_defragment s HI) as HI1.
  destruct (defragment_cases s HI) as (m & Hd & Hlen & Hm).
  rewrite Hd in *. simpl in *.
  set (items := sorted_by_start (allocations s)) in *.
  destruct (defragment_cases _ HI1) as (m' & -> & Hlen' & Hm'). simpl in *.
  assert (sorted_by_start (relocate 0 items) = relocate 0 items) as Hsorted.
  { apply sorted_by_start_id, relocate_sorted. by apply sorted_items_sizes. }
  rewrite Hsorted, relocate_relocate, total_size_relocate in *.
  do 2 f_equal. apply list_eq. intros k.
  destruct (decide (k < length m)%nat) as [Hk|Hk].
  - rewrite Hm' by done. rewrite Hm by lia. done.
  - rewrite !lookup_ge_None_2 by lia. done.
Qed.

(** After [defragment] in a reachable state, an allocation succeeds
    exactly when the request is at most the free space [N - cursor], where
    [cursor] is the sum of the sizes of the live blocks; the new block is
    placed at [cursor], right behind the compacted blocks. *)
Theorem alloc_after_defragment (s : MemoryManager.t) (sz : Z) :
  reachable s →
  let s1 := fst (defragment s) in
  let cursor := total_size (allocations s) in
  (1 ≤ sz ≤ size s - cursor → allocated_at s1 sz cursor (alloc s1 sz)) ∧
  (size s - cursor < sz ≤ size s → alloc s1 sz = (s1, Err InsufficientMemory)).
Proof.
  intros Hr s1 cursor. apply reachable_Inv in Hr as HI.
  pose proof (inv_length s HI) as HN.
  pose proof (sorted_items_fit s HI) as Hfit.
  pose proof (total_size_nonneg _ (sorted_items_sizes s HI)) as Hnonneg.
  rewrite (total_size_perm _ _ (sorted_by_start_perm (allocations s))) in Hfit, Hnonneg.
  fold cursor in Hfit, Hnonneg.
  destruct (defragment_cases s HI) as (m & Hd & Hlen & Hm).
  rewrite (total_size_perm _ _ (sorted_by_start_perm (allocations s))) in Hm.
  fold cursor in Hm.
  assert (memory s1 = m) as Hmem by (unfold s1; by rewrite Hd).
  assert (∀ j, 0 ≤ j < size s →
            memory s1 !! Z.to_nat j = Some (if j <? cursor then "X" else "-")) as Hcell.
  { intros j Hj. rewrite Hmem, Hm by lia. by rewrite Z2Nat.id by lia. }
  assert (Z.of_nat (length (memory s1)) = size s) as HN1 by (rewrite Hmem; lia).
  pose proof (alloc_cases s1 sz) as Hcases. cbv zeta in Hcases. rewrite HN1 in Hcases.
  split.
  - intros Hsz.
    assert (free_run (memory s1) cursor sz) as Hfree.
    { intros j Hj. rewrite Hcell by lia. ztest. done. }
    destruct Hcases as [[Hbad _]|[(_ & _ & Hnone)|(_ & i & Hi & Hfi & Hlow & Hat)]].
    + lia.
    + exfalso. apply (Hnone cursor); [lia | done].
    + destruct (Z.lt_trichotomy i cursor) as [Hlt|[->|Hgt]]; [|done|].
      * exfalso. pose proof (Hfi i ltac:(lia)) as Hi'.
        rewrite Hcell in Hi' by lia. revert Hi'. ztest. done.
      * exfalso. apply (Hlow cursor); [lia | done].
  - intros Hsz.
    destruct Hcases as [[Hbad _]|[(_ & He & _)|(_ & i & Hi & Hfi & _)]].
    + lia.
    + done.
    + exfalso. pose proof (Hfi i ltac:(lia)) as Hi'.
      rewrite Hcell in Hi' by lia. revert Hi'. ztest. done.
Qed.

(** ** More on writing *)

Lemma dict_set_same {V} (d : dict V) (k : Z) (v : V) :
  dict_get d k = Some v → dict_set d k v = d.
Proof.
  induction d as [|[k0 v0] d IH]; simpl; [done|].
  destruct (Z.eqb_spec k0 k) as [->|Hne].
  - by intros [= ->].
  - intros Hg. by rewrite IH.
Qed.

(** In any state, a [write] of the empty string to a live handle changes
    nothing: it succeeds when the offset lies inside the block and raises
    the offset [IndexError] otherwise, also at the offset just past the
    end of the block. *)
Theorem write_empty_data (s : MemoryManager.t) (h o : Z) (b : MemoryBlock.t) :
  dict_get (allocations s) h = Some b →
  write s h o EmptyString =
    (s, if (0 <=? o) && (o <? MemoryBlock.size b) then Ok tt
        else Err (WriteOffsetOutOfBounds o h)).
Proof.
  intros Hb. unfold write. rewrite Hb. ztest; try done.
  { simpl in *. lia. }
  unfold with_allocations, MemoryBlock.with_data.
  destruct b as [st sz dt]. simpl. rewrite dict_set_same by done.
  by destruct s.
Qed.

(** In any state, a [write] to one handle changes the outcome of no
    [read] of another handle, whether the write succeeds or raises. *)
Theorem write_keeps_other_reads (s : MemoryManager.t) (h o : Z) (d : string)
    (h' o' n : Z) :
  h' ≠ h →
  snd (read (fst (write s h o d)) h' o' n) = snd (read s h' o' n).
Proof.
  intros Hne.
  assert (length (memory (fst (write s h o d))) = length (memory s) ∧
          dict_get (allocations (fst (write s h o d))) h' =
            dict_get (allocations s) h') as [Hlen Hget].
  { destruct (write_cases s h o d)
      as [[_ ->]|(b & _ & [[_ ->]|[(_ & _ & ->)|(_ & _ & cells & err & _ & ->)]])];
      try done. simpl. split; [done|]. rewrite dict_get_set.
    destruct (Z.eqb_spec h h'); [congruence|done]. }
  pose proof (read_cases s h' o' n) as H1. cbv zeta in H1.
  pose proof (read_cases (fst (write s h o d)) h' o' n) as H2. cbv zeta in H2.
  rewrite Hlen, Hget in H2.
  destruct (dict_get (allocations s) h') as [b|].
  - revert H1 H2. ztest; intros -> ->; done.
  - by rewrite H1, H2.
Qed.

(** ** The constructor *)

(** [MemoryManager(n)] raises for [n <= 0].  For [n > 0] it builds a
    region of [n] free cells with an empty table, which renders as [n]
    dashes, and in which a first allocation of any size from 1 to [n] gets
    handle 1 at offset 0. *)
Theorem init_gives_free_region (n : Z) :
  (n ≤ 0 → init n = Err MemorySizeNotPositive) ∧
  (0 < n →
   ∃ s, init n = Ok s ∧
        size s = n ∧ next_id s = 1 ∧
        (∀ h, dict_get (allocations s) h = None) ∧
        (∀ j, 0 ≤ j < n → memory s !! Z.to_nat j = Some "-") ∧
        __str__ s = Ok (join (replicate (Z.to_nat n) "-")) ∧
        (∀ sz, 1 ≤ sz ≤ n → allocated_at s sz 0 (alloc s sz))).
Proof.
  split; intros Hn; destruct (init_cases n) as [[? Hi]|[? Hi]]; try lia; [done|].
  eexists. split; [exact Hi|]. simpl. repeat split.
  - intros j Hj. apply lookup_replicate_2. lia.
  - unfold __str__. simpl. by rewrite length_replicate.
  - intros sz Hsz.
    set (s := MemoryManager.mk n (replicate (Z.to_nat n) "-") [] 1).
    assert (Z.of_nat (length (memory s)) = n) as HN
      by (simpl; rewrite length_replicate; lia).
    assert (free_run (memory s) 0 sz) as Hfree.
    { intros j Hj. apply lookup_replicate_2. lia. }
    pose proof (alloc_cases s sz) as Hcases. cbv zeta in Hcases. rewrite HN in Hcases.
    destruct Hcases as [[Hbad _]|[(_ & _ & Hnone)|(_ & i & Hi' & _ & Hlow & Hat)]].
    + lia.
    + exfalso. apply (Hnone 0); [lia | done].
    + destruct (decide (i = 0)) as [->|Hne]; [done|].
      exfalso. apply (Hlow 0); [lia | done].
Qed.

(** ** What a call does to the other blocks *)

(** In a reachable state, a live block keeps its size and its payload
    through every call that is neither a [write] nor a [free] on its own
    handle, and it keeps its start through every such call but
    [defragment]. *)
Theorem block_changes_only_by_own_calls (s : MemoryManager.t) (c : call)
    (h : Z) (b : MemoryBlock.t) :
  reachable s →
  dict_get (allocations s) h = Some b →
  (∀ o d, c ≠ Write h o d) →
  c ≠ Free h →
  ∃ b', dict_get (allocations (fst (run c s))) h = Some b' ∧
        MemoryBlock.size b' = MemoryBlock.size b ∧
        MemoryBlock.data b' = MemoryBlock.data b ∧
        (c ≠ Defragment → MemoryBlock.start b' = MemoryBlock.start b).
Proof.
  intros Hr Hb Hw Hf. apply reachable_Inv in Hr as HI.
  destruct c as [sz|h'| |h' o d|h' o n]; simpl.
  - exists b. repeat split.
    destruct (alloc_cases s sz) as [[_ ->]|[(_ & -> & _)|(_ & i & _ & _ & _ & m & -> & _)]];
      [done | done |]. simpl.
    rewrite dict_get_set. pose proof (inv_ids s HI h b Hb).
    destruct (Z.eqb_spec (next_id s) h); [lia|done].
  - exists b. repeat split.
    destruct (free_cases s h' HI) as [[_ ->]|(b0 & m & _ & -> & _)]; [done|]. simpl.
    rewrite dict_get_del by apply (inv_keys s HI).
    destruct (Z.eqb_spec h' h); [congruence|done].
  - destruct (defragment_cases s HI) as (m & -> & _). simpl.
    pose proof (defragment_lookup s h HI) as Hlk. rewrite Hb in Hlk.
    destruct Hlk as [a Ha]. eexists. split; [exact Ha|]. done.
  - exists b. repeat split.
    destruct (write_cases_Inv s h' o d HI)
      as [(e' & -> & _)|(b0 & cells & _ & _ & _ & _ & ->)]; [done|]. simpl.
    rewrite dict_get_set.
    destruct (Z.eqb_spec h' h) as [->|]; [by destruct (Hw o d) | done].
  - exists b. repeat split.
    pose proof (read_state s h' o n) as Hst. destruct (read s h' o n) as [s' r].
    simpl in *. by subst s'.
Qed.

(** In a reachable state, once a block has been freed an allocation of
    any size up to the size of that block succeeds, at the start of the
    freed block or at a lower offset. *)
Theorem freed_space_is_reusable (s : MemoryManager.t) (h sz : Z) (b : MemoryBlock.t) :
  reachable s →
  dict_get (allocations s) h = Some b →
  1 ≤ sz ≤ MemoryBlock.size b →
  ∃ i, 0 ≤ i ≤ MemoryBlock.start b ∧
       allocated_at (fst (free s h)) sz i (alloc (fst (free s h)) sz).
Proof.
  intros Hr Hb Hsz. apply reachable_Inv in Hr as HI.
  pose proof (inv_length s HI) as HN.
  destruct (inv_block s HI h b Hb) as (_ & Hst & Hend & _).
  destruct (free_cases s h HI) as [[Hn _]|(b' & m & Hb' & -> & Hlen & Hm)];
    [congruence|].
  rewrite Hb in Hb'. injection Hb' as <-. simpl.
  set (s1 := MemoryManager.mk (size s) m (dict_del (allocations s) h) (next_id s)).
  assert (free_run (memory s1) (MemoryBlock.start b) sz) as Hfree.
  { intros j Hj. simpl. rewrite Hm. rewrite Z2Nat.id by lia. ztest. done. }
  pose proof (alloc_cases s1 sz) as Hcases. cbv zeta in Hcases.
  simpl in Hcases. rewrite Hlen in Hcases.
  destruct Hcases as [[Hbad _]|[(_ & _ & Hnone)|(_ & i & Hi & _ & Hlow & Hat)]].
  - lia.
  - exfalso. apply (Hnone (MemoryBlock.start b)); [lia | done].
  - exists i. split; [|done].
    destruct (Z.le_gt_cases i (MemoryBlock.start b)); [lia|].
    exfalso. apply (Hlow (MemoryBlock.start b)); [lia | done].
Qed.

(** ** The further properties on the concrete runs *)

Lemma str_shows_blocks_witness :
  reachable state_abc ∧
  ∃ cells, __str__ state_abc = Ok (join cells) ∧
           Z.of_nat (length cells) = size state_abc ∧
           cells !! 1%nat = Some "b" ∧
           cells !! 4%nat = Some "-".
Proof.
  split; [apply reachable_state_abc|].
  destruct (str_shows_blocks state_abc reachable_state_abc) as (cells & Hs & Hl & Hc).
  exists cells. split; [exact Hs|]. split; [exact Hl|]. split.
  - destruct (Hc 1) as [_ Hocc]; [evaluate|].
    destruct (Hocc 1 (MemoryBlock.mk 0 3 ["a"; "b"; "c"])) as (c & Hc1 & Hc2);
      [reflexivity | evaluate |].
    injection Hc1 as <-. exact Hc2.
  - destruct (Hc 4) as [Hfree _]; [evaluate|].
    apply Hfree. intros (h & b & Hb & Hj).
    change (allocations state_abc)
      with [(1, MemoryBlock.mk 0 3 ["a"; "b"; "c"])] in Hb.
    cbn [dict_get] in Hb.
    destruct (1 =? h); [injection Hb as <-; simpl in Hj; lia | discriminate].
Defined.

Lemma str_has_region_length_witness :
  reachable state_abc ∧
  ∃ str, __str__ state_abc = Ok str ∧
         Z.of_nat (String.length str) = size state_abc.
Proof.
  split; [apply reachable_state_abc|].
  apply (str_has_region_length state_abc reachable_state_abc).
Defined.

Lemma read_returns_at_most_length_witness :
  reachable state_abc ∧
  read state_abc 1 0 3 = (state_abc, Ok "abc") ∧
  Z.of_nat (String.length "abc") ≤ 3.
Proof.
  split; [apply reachable_state_abc|]. split; [reflexivity|].
  apply (read_returns_at_most_length state_abc state_abc 1 0 3 "abc").
  - apply reachable_state_abc.
  - reflexivity.
Defined.

Lemma free_releases_block_witness :
  reachable state_fragmented ∧
  dict_get (allocations state_fragmented) 3 = Some (MemoryBlock.init 2 1) ∧
  ∃ s', free state_fragmented 3 = (s', Ok true) ∧
        dict_get (allocations s') 3 = None ∧
        memory s' !! 2%nat = Some "-".
Proof.
  split; [apply reachable_state_fragmented|]. split; [reflexivity|].
  destruct (free_releases_block state_fragmented 3 (MemoryBlock.init 2 1)
              reachable_state_fragmented eq_refl)
    as (s' & Hf & Hn & _ & _ & _ & _ & Hm).
  exists s'. split; [exact Hf|]. split; [exact Hn|].
  apply (Hm 2). lia.
Defined.

Lemma freed_handle_is_unknown_witness :
  reachable state_fragmented ∧
  snd (free state_fragmented 1) = Ok true ∧
  ∀ o n, read (run_all [Alloc 1] (fst (free state_fragmented 1))) 1 o n =
           (run_all [Alloc 1] (fst (free state_fragmented 1)), Err (NoSuchBlock 1)).
Proof.
  split; [apply reachable_state_fragmented|]. split; [reflexivity|].
  apply (freed_handle_is_unknown state_fragmented 1 true [Alloc 1]).
  - apply reachable_state_fragmented.
  - reflexivity.
Defined.

Lemma reachable_state_alloc1 : reachable state_alloc1.
Proof. apply reachable_run_all, reachable_mm5. Qed.

Lemma alloc_enters_fresh_block_witness :
  reachable state_alloc1 ∧
  alloc state_alloc1 2 = (fst (alloc state_alloc1 2), Ok 2) ∧
  dict_get (allocations state_alloc1) 2 = None ∧
  (allocations (fst (alloc state_alloc1 2))).*1 = (allocations state_alloc1).*1 ++ [2].
Proof.
  split; [apply reachable_state_alloc1|]. split; [reflexivity|].
  destruct (alloc_enters_fresh_block state_alloc1 (fst (alloc state_alloc1 2)) 2 2
              reachable_state_alloc1 eq_refl) as (_ & Hn & _ & _ & Hk).
  split; [exact Hn | exact Hk].
Defined.

Lemma alloc_then_free_restores_witness :
  reachable state_alloc1 ∧
  alloc state_alloc1 2 = (fst (alloc state_alloc1 2), Ok 2) ∧
  free (fst (alloc state_alloc1 2)) 2 =
    (MemoryManager.mk (size state_alloc1) (memory state_alloc1)
       (allocations state_alloc1) (next_id state_alloc1 + 1), Ok true).
Proof.
  split; [apply reachable_state_alloc1|]. split; [reflexivity|].
  apply (alloc_then_free_restores state_alloc1 (fst (alloc state_alloc1 2)) 2 2).
  - apply reachable_state_alloc1.
  - reflexivity.
Defined.

Lemma fresh_block_reads_empty_witness :
  alloc mm5 3 = (state_alloc3, Ok 1) ∧
  read state_alloc3 1 0 3 = (state_alloc3, Ok EmptyString).
Proof.
  split; [reflexivity|].
  apply (fresh_block_reads_empty mm5 state_alloc3 3 1 0 3); [reflexivity | lia | lia | lia].
Defined.

Lemma live_sizes_fit_region_witness :
  reachable state_fragmented ∧
  total_size (allocations state_fragmented) ≤ size state_fragmented ∧
  Z.of_nat (length (allocations state_fragmented)) ≤ total_size (allocations state_fragmented).
Proof.
  split; [apply reachable_state_fragmented|].
  apply (live_sizes_fit_region state_fragmented reachable_state_fragmented).
Defined.

Lemma defragment_preserves_reads_witness :
  reachable state_fragmented ∧
  snd (read (fst (defragment state_fragmented)) 5 0 1) = snd (read state_fragmented 5 0 1).
Proof.
  split; [apply reachable_state_fragmented|].
  apply (defragment_preserves_reads state_fragmented 5 0 1 reachable_state_fragmented).
Defined.

Lemma defragment_twice_witness :
  reachable state_fragmented ∧
  defragment (fst (defragment state_fragmented)) = (fst (defragment state_fragmented), Ok tt).
Proof.
  split; [apply reachable_state_fragmented|].
  apply (defragment_twice state_fragmented reachable_state_fragmented).
Defined.

Lemma alloc_after_defragment_witness :
  reachable state_fragmented ∧
  1 ≤ 2 ≤ size state_fragmented - total_size (allocations state_fragmented) ∧
  allocated_at (fst (defragment state_fragmented)) 2 3
    (alloc (fst (defragment state_fragmented)) 2) ∧
  size state_fragmented - total_size (allocations state_fragmented) < 3 ≤ size state_fragmented ∧
  alloc (fst (defragment state_fragmented)) 3 =
    (fst (defragment state_fragmented), Err InsufficientMemory).
Proof.
  split; [apply reachable_state_fragmented|].
  assert (1 ≤ 2 ≤ size state_fragmented - total_size (allocations state_fragmented)) as H2
    by evaluate.
  assert (size state_fragmented - total_size (allocations state_fragmented) < 3
          ≤ size state_fragmented) as H3 by evaluate.
  split; [exact H2|].
  split; [exact (proj1 (alloc_after_defragment state_fragmented 2 reachable_state_fragmented) H2)|].
  split; [exact H3|].
  exact (proj2 (alloc_after_defragment state_fragmented 3 reachable_state_fragmented) H3).
Defined.

Lemma write_empty_data_witness :
  dict_get (allocations state_alloc3) 1 = Some (MemoryBlock.init 0 3) ∧
  write state_alloc3 1 0 EmptyString = (state_alloc3, Ok tt) ∧
  write state_alloc3 1 3 EmptyString = (state_alloc3, Err (WriteOffsetOutOfBounds 3 1)).
Proof.
  split; [reflexivity|]. split.
  - exact (write_empty_data state_alloc3 1 0 (MemoryBlock.init 0 3) eq_refl).
  - exact (write_empty_data state_alloc3 1 3 (MemoryBlock.init 0 3) eq_refl).
Defined.

Lemma write_keeps_other_reads_witness :
  3 ≠ 1 ∧
  snd (read (fst (write state_fragmented 1 0 "a")) 3 0 1) =
    snd (read state_fragmented 3 0 1).
Proof.
  split; [lia|].
  apply (write_keeps_other_reads state_fragmented 1 0 "a" 3 0 1). lia.
Defined.

Lemma init_gives_free_region_witness :
  0 < 5 ∧
  ∃ s, init 5 = Ok s ∧ size s = 5 ∧
       __str__ s = Ok (join (replicate (Z.to_nat 5) "-")) ∧
       allocated_at s 5 0 (alloc s 5).
Proof.
  split; [lia|].
  destruct (proj2 (init_gives_free_region 5) ltac:(lia))
    as (s & Hi & Hs & _ & _ & _ & Hstr & Ha).
  exists s. split; [exact Hi|]. split; [exact Hs|]. split; [exact Hstr|].
  apply Ha. lia.
Defined.

Lemma block_changes_only_by_own_calls_witness :
  reachable state_fragmented ∧
  dict_get (allocations state_fragmented) 3 = Some (MemoryBlock.init 2 1) ∧
  ∃ b', dict_get (allocations (fst (run Defragment state_fragmented))) 3 = Some b' ∧
        MemoryBlock.size b' = 1 ∧
        MemoryBlock.data b' = [EmptyString].
Proof.
  split; [apply reachable_state_fragmented|]. split; [reflexivity|].
  destruct (block_changes_only_by_own_calls state_fragmented Defragment 3
              (MemoryBlock.init 2 1) reachable_state_fragmented eq_refl)
    as (b' & Hb' & Hsz & Hd & _); [discriminate | discriminate |].
  exists b'. split; [exact Hb'|]. split; [exact Hsz | exact Hd].
Defined.

Lemma freed_space_is_reusable_witness :
  reachable state_fragmented ∧
  dict_get (allocations state_fragmented) 3 = Some (MemoryBlock.init 2 1) ∧
  1 ≤ 1 ≤ MemoryBlock.size (MemoryBlock.init 2 1) ∧
  ∃ i, 0 ≤ i ≤ 2 ∧
       allocated_at (fst (free state_fragmented 3)) 1 i
         (alloc (fst (free state_fragmented 3)) 1).
Proof.
  split; [apply reachable_state_fragmented|]. split; [reflexivity|].
  assert (1 ≤ 1 ≤ MemoryBlock.size (MemoryBlock.init 2 1)) as Hsz by (simpl; lia).
  split; [exact Hsz|].
  exact (freed_space_is_reusable state_fragmented 3 1 (MemoryBlock.init 2 1)
           reachable_state_fragmented eq_refl Hsz).
Defined.
